(** * react-play-button: the PlayButton component of [src/index.js]

    A shallow embedding of the [PlayButton] React component (the audio
    session binding, the progress loop, the icon morph loop and what
    [render] draws) together with the properties of its specification.

    Conventions of the embedding.
    - JavaScript numbers are exact rationals extended with [NaN] and the two
      infinities.  Rounding, overflow and the sign of zero are not modelled
      (zero counts as positive zero).
    - The component instance ([this]) is a record threaded through a small
      state-and-error monad; [None] stands for a thrown [TypeError], or for
      an event that React never delivers to an instance in that phase.
    - [requestAnimationFrame], [setTimeout] and the [setState] callbacks are
      explicit queues held in the instance; the environment fires them
      through events.
    - The instance records where it is in its life with React (constructed,
      mounted, unmounted).  The component uses [React.PropTypes], that is
      React up to version 15, where a [setState] on an instance that is not
      mounted writes nothing and drops its callback.
    - Every call on the audio engine and every [setState] is appended to a
      log, so that "calls exactly once" and "publishes" are statements about
      that log. *)

From Stdlib Require Import ZArith QArith Qround Bool List Ascii String Lia Lra
  Psatz.
Import ListNotations.

Set Implicit Arguments.
Close Scope Q_scope.

(* ------------------------------------------------------------------ *)
(** ** JavaScript numbers *)
(* ------------------------------------------------------------------ *)

Module JsNum.

Inductive num : Type :=
| NaN
| PInf
| NInf
| Fin (q : Q).

Definition zero : num := Fin 0.
Definition one : num := Fin 1.
Definition ofZ (z : Z) : num := Fin (inject_Z z).

Definition isFinite (x : num) : bool :=
  match x with Fin _ => true | _ => false end.

(** Unary minus. *)
Definition neg (x : num) : num :=
  match x with
  | NaN => NaN
  | PInf => NInf
  | NInf => PInf
  | Fin q => Fin (- q)
  end.

(** [x + y]. *)
Definition add (x y : num) : num :=
  match x, y with
  | NaN, _ | _, NaN => NaN
  | PInf, NInf | NInf, PInf => NaN
  | PInf, _ | _, PInf => PInf
  | NInf, _ | _, NInf => NInf
  | Fin a, Fin b => Fin (a + b)
  end.

(** [x - y]. *)
Definition sub (x y : num) : num := add x (neg y).

(** An infinity of the sign of [s * t], [s] being the sign of an infinity
    ([true] for positive) and [q] a finite factor; [NaN] when [q] is zero. *)
Definition infTimes (s : bool) (q : Q) : num :=
  match (q ?= 0)%Q with
  | Eq => NaN
  | Gt => if s then PInf else NInf
  | Lt => if s then NInf else PInf
  end.

(** [x * y]. *)
Definition mul (x y : num) : num :=
  match x, y with
  | NaN, _ | _, NaN => NaN
  | PInf, PInf | NInf, NInf => PInf
  | PInf, NInf | NInf, PInf => NInf
  | PInf, Fin q | Fin q, PInf => infTimes true q
  | NInf, Fin q | Fin q, NInf => infTimes false q
  | Fin a, Fin b => Fin (a * b)
  end.

(** [x / y]. *)
Definition div (x y : num) : num :=
  match x, y with
  | NaN, _ | _, NaN => NaN
  | (PInf | NInf), (PInf | NInf) => NaN
  | PInf, Fin q => if Qle_bool 0 q then PInf else NInf
  | NInf, Fin q => if Qle_bool 0 q then NInf else PInf
  | Fin _, (PInf | NInf) => Fin 0
  | Fin a, Fin b =>
      if Qeq_bool b 0 then infTimes true a else Fin (a / b)
  end.

(** [x > y]; false as soon as one side is [NaN]. *)
Definition gtb (x y : num) : bool :=
  match x, y with
  | NaN, _ | _, NaN => false
  | PInf, PInf => false
  | PInf, _ => true
  | _, PInf => false
  | NInf, _ => false
  | Fin _, NInf => true
  | Fin a, Fin b => negb (Qle_bool a b)
  end.

(** [Math.pow(x, 3)]. *)
Definition pow3 (x : num) : num := mul x (mul x x).

(** [ToNumber] of a value that may be [undefined]. *)
Definition toNumber (v : option num) : num :=
  match v with
  | Some x => x
  | None => NaN
  end.

(** Equality of numbers as values: rationals up to [Qeq]; [NaN] is related
    to itself here, the relation compares published values and is not the
    JavaScript [===]. *)
Definition same (x y : num) : Prop :=
  match x, y with
  | NaN, NaN | PInf, PInf | NInf, NInf => True
  | Fin a, Fin b => (a == b)%Q
  | _, _ => False
  end.

(** [x] lies in the closed interval with ends [lo] and [hi], given in either
    order. *)
Definition between (lo hi x : num) : Prop :=
  match lo, hi, x with
  | Fin a, Fin b, Fin q =>
      ((a <= q /\ q <= b) \/ (b <= q /\ q <= a))%Q
  | _, _, _ => False
  end.

End JsNum.
Import JsNum.

(* ------------------------------------------------------------------ *)
(** ** The component *)
(* ------------------------------------------------------------------ *)

Module PlayButton.

(** An icon polygon: the [x, y] pairs of [state.iconPoints]. *)
Definition Point : Type := (num * num)%type.
Definition Points : Type := list Point.

(** [this.props] (the two callbacks [play] and [stop] belong to the owner of
    the component; calling them is recorded in the log). *)
Record Props : Type := mkProps {
  url : string;
  active : bool;
  audioId : string;
  audioFormat : string;
  size : num;
  progressCircleWidth : num;
  progressCircleColor : string;
  idleBackgroundColor : string;
  activeBackgroundColor : string;
  stopIconColor : string;
  playIconColor : string;
  iconAnimationLength : num;
  fadeInLength : num;
  fadeOutLength : num
}.

(** [this.state]; [duration] is absent until the load callback sets it. *)
Record State : Type := mkState {
  progress : num;
  loading : bool;
  duration : option num;
  iconPoints : Points
}.

(** The variables captured by the closure [updatePosition] of one call of
    [animateIcon]; [runId] names the call. *)
Record AnimationRun : Type := mkRun {
  runId : nat;
  startTime : Z;
  runDuration : num;
  initialPoints : Points;
  finalPoints : Points
}.

(** Callbacks handed to [requestAnimationFrame]: the arrow function of
    [updateProgress] (tagged with the loop it belongs to) and the one of
    [updatePosition]. *)
Inductive Task : Type :=
| TProgress (loop : nat)
| TIcon (r : AnimationRun).

(** Callbacks handed to [window.setTimeout]: [() => this.howler.stop()]. *)
Inductive TimerTask : Type :=
| TStop.

(** Callbacks handed to [setState] during a props update:
    [() => this.updateProgress()]. *)
Inductive Callback : Type :=
| CbUpdateProgress (loop : nat).

(** What the component does to its collaborators and to its own published
    state.  [SetProgress None] is a reset by a trigger, [SetProgress (Some l)]
    an update by the frame callback of loop [l]. *)
Inductive Effect : Type :=
| HowlNew (h : nat) (src : string) (format : string)
| HowlUnload (h : nat)
| HowlPlay (h : nat)
| HowlFade (h : nat) (from to len : num)
| HowlStop (h : nat)
| SetTimeout (task : TimerTask) (delay : num)
| AnimateIcon (run : nat) (shape : string)
| SetProgress (loop : option nat) (v : num)
| SetIconPoints (run : nat) (pts : Points)
| SetLoaded (d : num)
| PropsPlay (id : string)
| PropsStop.

(** Where an instance is in its life with React. *)
Inductive Phase : Type :=
| Constructed
| Mounted
| Unmounted.

(** The instance: [this.props], [this.state], [this.howler], the pending
    callbacks, the audio engine's live sessions, the log, and the phase
    React keeps for it. *)
Record Comp : Type := mkComp {
  props : Props;
  state : State;
  howler : option nat;
  rafQueue : list Task;
  timers : list (num * TimerTask);
  callbacks : list Callback;
  nextHowl : nat;
  liveHowls : list nat;
  nextId : nat;
  log : list Effect;
  phase : Phase
}.

Definition setProps (p : Props) (c : Comp) : Comp :=
  mkComp p (state c) (howler c) (rafQueue c) (timers c) (callbacks c)
         (nextHowl c) (liveHowls c) (nextId c) (log c) (phase c).

Definition setStateOf (s : State) (c : Comp) : Comp :=
  mkComp (props c) s (howler c) (rafQueue c) (timers c) (callbacks c)
         (nextHowl c) (liveHowls c) (nextId c) (log c) (phase c).

Definition setHowler (h : option nat) (c : Comp) : Comp :=
  mkComp (props c) (state c) h (rafQueue c) (timers c) (callbacks c)
         (nextHowl c) (liveHowls c) (nextId c) (log c) (phase c).

Definition setRafQueue (q : list Task) (c : Comp) : Comp :=
  mkComp (props c) (state c) (howler c) q (timers c) (callbacks c)
         (nextHowl c) (liveHowls c) (nextId c) (log c) (phase c).

Definition setTimers (t : list (num * TimerTask)) (c : Comp) : Comp :=
  mkComp (props c) (state c) (howler c) (rafQueue c) t (callbacks c)
         (nextHowl c) (liveHowls c) (nextId c) (log c) (phase c).

Definition setCallbacks (k : list Callback) (c : Comp) : Comp :=
  mkComp (props c) (state c) (howler c) (rafQueue c) (timers c) k
         (nextHowl c) (liveHowls c) (nextId c) (log c) (phase c).

Definition setEngine (n : nat) (live : list nat) (c : Comp) : Comp :=
  mkComp (props c) (state c) (howler c) (rafQueue c) (timers c) (callbacks c)
         n live (nextId c) (log c) (phase c).

Definition setNextId (n : nat) (c : Comp) : Comp :=
  mkComp (props c) (state c) (howler c) (rafQueue c) (timers c) (callbacks c)
         (nextHowl c) (liveHowls c) n (log c) (phase c).

Definition setLog (l : list Effect) (c : Comp) : Comp :=
  mkComp (props c) (state c) (howler c) (rafQueue c) (timers c) (callbacks c)
         (nextHowl c) (liveHowls c) (nextId c) l (phase c).

Definition setPhase (ph : Phase) (c : Comp) : Comp :=
  mkComp (props c) (state c) (howler c) (rafQueue c) (timers c) (callbacks c)
         (nextHowl c) (liveHowls c) (nextId c) (log c) ph.

(** *** The monad of methods *)

Definition M (A : Type) : Type := Comp -> option (A * Comp).

Definition ret {A : Type} (a : A) : M A := fun c => Some (a, c).

Definition bind {A B : Type} (m : M A) (k : A -> M B) : M B :=
  fun c => match m c with
           | Some (a, c') => k a c'
           | None => None
           end.

(** A thrown [TypeError]. *)
Definition throw {A : Type} : M A := fun _ => None.

(** An event that React does not deliver: there is no next state. *)
Definition undelivered {A : Type} : M A := fun _ => None.

Definition get : M Comp := fun c => Some (c, c).

Definition modify (f : Comp -> Comp) : M unit := fun c => Some (tt, f c).

Declare Scope method_scope.
Delimit Scope method_scope with method.
Notation "x <- m ;; k" := (bind m (fun x => k))
  (at level 61, m at next level, right associativity) : method_scope.
Notation "m ;; k" := (bind m (fun _ => k))
  (at level 61, right associativity) : method_scope.
Local Open Scope method_scope.

(** The state a method leaves, when it does not throw. *)
Definition exec {A : Type} (m : M A) (c : Comp) : option Comp :=
  match m c with
  | Some (_, c') => Some c'
  | None => None
  end.

Definition emit (e : Effect) : M unit :=
  modify (fun c => setLog (log c ++ [e]) c).

(** A fresh name for a loop or a run. *)
Definition fresh : M nat :=
  c <- get ;;
  modify (setNextId (S (nextId c))) ;;
  ret (nextId c).

(** *** The audio engine (Howler) *)

(** [this.howler], on which a method call throws when it is undefined. *)
Definition thisHowler : M nat :=
  c <- get ;;
  match howler c with
  | Some h => ret h
  | None => throw
  end.

(** [this.howler = new Howl({ src: [src], format: format, ... })]. *)
Definition newHowl (src format : string) : M unit :=
  c <- get ;;
  let h := nextHowl c in
  modify (setEngine (S h) (h :: liveHowls c)) ;;
  emit (HowlNew h src format) ;;
  modify (setHowler (Some h)).

(** [h.unload()]. *)
Definition howlUnload (h : nat) : M unit :=
  c <- get ;;
  modify (setEngine (nextHowl c) (remove Nat.eq_dec h (liveHowls c))) ;;
  emit (HowlUnload h).

(** [this.howler.play()]. *)
Definition howlPlay : M unit :=
  h <- thisHowler ;;
  emit (HowlPlay h).

(** [this.howler.fade(from, to, len)]. *)
Definition howlFade (from to len : num) : M unit :=
  h <- thisHowler ;;
  emit (HowlFade h from to len).

(** [this.howler.stop()]. *)
Definition howlStop : M unit :=
  h <- thisHowler ;;
  emit (HowlStop h).

(** *** React and the browser *)

Definition ifMounted {A : Type} (ph : Phase) (yes no : A) : A :=
  match ph with
  | Mounted => yes
  | _ => no
  end.

(** What [setState] does with an update and its callback: on a mounted
    instance the update is applied and the callback runs; on any other
    instance React ignores the call, and neither happens. *)
Definition whenMounted (update : M unit) : M unit :=
  c <- get ;;
  ifMounted (phase c) update (ret tt).

(** [this.setState({ progress: v }, callback)]. *)
Definition setProgress (loop : option nat) (v : num) (callback : M unit)
  : M unit :=
  whenMounted
    (modify (fun c =>
       let s := state c in
       setStateOf (mkState v (loading s) (duration s) (iconPoints s)) c) ;;
     emit (SetProgress loop v) ;;
     callback).

(** [this.setState({ iconPoints: pts }, callback)]. *)
Definition setIconPoints (run : nat) (pts : Points) (callback : M unit)
  : M unit :=
  whenMounted
    (modify (fun c =>
       let s := state c in
       setStateOf (mkState (progress s) (loading s) (duration s) pts) c) ;;
     emit (SetIconPoints run pts) ;;
     callback).

(** [this.setState({ loading: false, duration: d })]. *)
Definition setLoaded (d : num) : M unit :=
  whenMounted
    (modify (fun c =>
       let s := state c in
       setStateOf (mkState (progress s) false (Some d) (iconPoints s)) c) ;;
     emit (SetLoaded d)).

(** [window.requestAnimationFrame(t)]. *)
Definition requestAnimationFrame (t : Task) : M unit :=
  modify (fun c => setRafQueue (rafQueue c ++ [t]) c).

(** [window.setTimeout(task, delay)]. *)
Definition setTimeout (task : TimerTask) (delay : num) : M unit :=
  modify (fun c => setTimers (timers c ++ [(delay, task)]) c) ;;
  emit (SetTimeout task delay).

(** The callback of a [setState] issued during a props update: it runs once
    the update is over. *)
Definition afterUpdate (k : Callback) : M unit :=
  modify (fun c => setCallbacks (callbacks c ++ [k]) c).

(** *** The helpers imported by [index.js] *)

(** Modelled from the spec: [easeOutCubic] of [./helpers/easing], which is
    not part of the sources at hand.  With [n = t / d] the result is
    [c * (Math.pow(n - 1, 3) + 1) + b]. *)
Definition easeOutCubic (t b c d : num) : num :=
  let n := div t d in
  add (mul c (add (pow3 (sub n one)) one)) b.

(** [getPlayIconPoints] and [getStopIconPoints] of [./helpers/icon-points]
    are not part of the sources at hand: the component is parametric in
    them. *)
Class IconHelpers : Type := {
  getPlayIconPoints : Props -> Points;
  getStopIconPoints : Props -> Points
}.

Section Methods.

Context {helpers : IconHelpers}.

(** [constructor(props)]. *)
Definition constructor (p : Props) : Comp :=
  mkComp p (mkState zero true None (getPlayIconPoints p))
         None [] [] [] 0 [] 0 [] Constructed.

(** [setupHowler()]. *)
Definition setupHowler : M unit :=
  c <- get ;;
  match howler c with
  | Some h => howlUnload h
  | None => ret tt
  end ;;
  newHowl (url (props c)) (audioFormat (props c)).

(** [componentWillMount()]. *)
Definition componentWillMount : M unit := setupHowler.

(** [componentWillUnmount()]. *)
Definition componentWillUnmount : M unit :=
  h <- thisHowler ;;
  howlUnload h.

(** [updateProgress()], for the loop instance [loop]. *)
Definition updateProgress (loop : nat) : M unit :=
  c <- get ;;
  if negb (active (props c)) then ret tt
  else requestAnimationFrame (TProgress loop).

(** The frame callback scheduled by [updateProgress]; [seek] is what
    [this.howler.seek()] returns.  The call of [updateProgress] follows the
    [setState], it is not its callback. *)
Definition progressFrame (loop : nat) (seek : num) : M unit :=
  c <- get ;;
  _ <- thisHowler ;;
  setProgress (Some loop)
              (div (mul seek (ofZ 1000)) (toNumber (duration (state c))))
              (ret tt) ;;
  updateProgress loop.

(** [updatePosition()] of the run [r]. *)
Definition updatePosition (r : AnimationRun) : M unit :=
  requestAnimationFrame (TIcon r).

(** [initialPoints.map((initialPoint, index) => ...)] from position [index]
    on; [finalPoints[index]] is undefined past the end of [final], and
    destructuring it throws. *)
Fixpoint morphFrom (index : nat) (time dur : num) (initial final : Points)
  : option Points :=
  match initial with
  | [] => Some []
  | (initialX, initialY) :: rest =>
      match nth_error final index with
      | None => None
      | Some (finalX, finalY) =>
          match morphFrom (S index) time dur rest final with
          | None => None
          | Some pts =>
              Some ((easeOutCubic time initialX (sub finalX initialX) dur,
                     easeOutCubic time initialY (sub finalY initialY) dur)
                    :: pts)
          end
      end
  end.

Definition morph (time dur : num) (initial final : Points) : option Points :=
  morphFrom 0 time dur initial final.

(** The frame callback scheduled by [updatePosition]; [now] is what
    [new Date().getTime()] returns.  [updatePosition] is the callback of the
    [setState]. *)
Definition iconFrame (r : AnimationRun) (now : Z) : M unit :=
  let time := ofZ (now - startTime r) in
  if gtb time (runDuration r) then ret tt
  else
    match morph time (runDuration r) (initialPoints r) (finalPoints r) with
    | None => throw
    | Some newPoints =>
        setIconPoints (runId r) newPoints (updatePosition r)
    end.

(** [animateIcon(shape)]; [now] is what [new Date().getTime()] returns. *)
Definition animateIcon (shape : string) (now : Z) : M unit :=
  c <- get ;;
  id <- fresh ;;
  emit (AnimateIcon id shape) ;;
  updatePosition
    (mkRun id now (iconAnimationLength (props c)) (iconPoints (state c))
           (if String.eqb shape "stop" then getStopIconPoints (props c)
            else getPlayIconPoints (props c))).

(** [triggerPlayAudio()]. *)
Definition triggerPlayAudio (now : Z) : M unit :=
  c <- get ;;
  howlPlay ;;
  howlFade zero one (fadeInLength (props c)) ;;
  animateIcon "stop" now ;;
  loop <- fresh ;;
  setProgress None zero (afterUpdate (CbUpdateProgress loop)).

(** [triggerStopAudio()]. *)
Definition triggerStopAudio (now : Z) : M unit :=
  c <- get ;;
  howlFade one zero (fadeOutLength (props c)) ;;
  setTimeout TStop (fadeOutLength (props c)) ;;
  animateIcon "play" now ;;
  setProgress None zero (ret tt).

(** [componentWillReceiveProps(nextProps)]. *)
Definition componentWillReceiveProps (nextProps : Props) (now : Z) : M unit :=
  c <- get ;;
  let justStartedPlaying := negb (active (props c)) && active nextProps in
  let justStoppedPlaying := active (props c) && negb (active nextProps) in
  let newAudioClip := negb (String.eqb (url (props c)) (url nextProps)) in
  (if justStartedPlaying then triggerPlayAudio now
   else if justStoppedPlaying then triggerStopAudio now
   else ret tt) ;;
  if newAudioClip then setupHowler else ret tt.

(** [clickHandler()]. *)
Definition clickHandler : M unit :=
  c <- get ;;
  if active (props c) then emit PropsStop
  else emit (PropsPlay (audioId (props c))).

(** The [onload] callback given to [new Howl]; [d] is what
    [this.howler.duration(this.props.audioId)] returns. *)
Definition onload (d : num) : M unit :=
  _ <- thisHowler ;;
  setLoaded (mul d (ofZ 1000)).

(** *** The environment *)

Definition runCallback (k : Callback) : M unit :=
  match k with
  | CbUpdateProgress loop => updateProgress loop
  end.

Fixpoint runCallbacks (ks : list Callback) : M unit :=
  match ks with
  | [] => ret tt
  | k :: rest => runCallback k ;; runCallbacks rest
  end.

(** One props update by React: [componentWillReceiveProps] runs on the old
    props, then [this.props] is replaced, then the callbacks of the
    [setState] calls made meanwhile run. *)
Definition receiveProps (nextProps : Props) (now : Z) : M unit :=
  componentWillReceiveProps nextProps now ;;
  modify (setProps nextProps) ;;
  c <- get ;;
  modify (setCallbacks []) ;;
  runCallbacks (callbacks c).

(** The browser runs the oldest pending frame callback. *)
Definition animationFrame (now : Z) (seek : num) : M unit :=
  c <- get ;;
  match rafQueue c with
  | [] => ret tt
  | t :: rest =>
      modify (setRafQueue rest) ;;
      match t with
      | TProgress loop => progressFrame loop seek
      | TIcon r => iconFrame r now
      end
  end.

Fixpoint removeAt {A : Type} (k : nat) (l : list A) : list A :=
  match k, l with
  | _, [] => []
  | O, _ :: rest => rest
  | S k', x :: rest => x :: removeAt k' rest
  end.

(** The browser fires the pending timer of position [k]. *)
Definition timeout (k : nat) : M unit :=
  c <- get ;;
  match nth_error (timers c) k with
  | None => ret tt
  | Some (_, TStop) =>
      modify (setTimers (removeAt k (timers c))) ;;
      howlStop
  end.

(** React mounts an instance once, right after it has constructed it: the
    instance becomes mounted and [componentWillMount] runs.  A component
    that is shown again is a new instance, built by [constructor]. *)
Definition mount : M unit :=
  c <- get ;;
  match phase c with
  | Constructed => modify (setPhase Mounted) ;; componentWillMount
  | _ => undelivered
  end.

(** React unmounts a mounted instance once: [componentWillUnmount] runs and
    the instance is mounted no more. *)
Definition unmount : M unit :=
  c <- get ;;
  match phase c with
  | Mounted => componentWillUnmount ;; modify (setPhase Unmounted)
  | _ => undelivered
  end.

(** What can happen to a component.  Frames, timers and load callbacks come
    from the browser and the engine, and still come after the unmount: the
    component cancels none of them. *)
Inductive Event : Type :=
| EvMount
| EvReceiveProps (nextProps : Props) (now : Z)
| EvFrame (now : Z) (seek : num)
| EvTimeout (k : nat)
| EvLoad (d : num)
| EvClick
| EvUnmount.

(** Props updates and clicks are given a meaning in every phase, though
    React produces them for mounted instances only. *)
Definition handle (e : Event) : M unit :=
  match e with
  | EvMount => mount
  | EvReceiveProps nextProps now => receiveProps nextProps now
  | EvFrame now seek => animationFrame now seek
  | EvTimeout k => timeout k
  | EvLoad d => onload d
  | EvClick => clickHandler
  | EvUnmount => unmount
  end.

Definition step (c : Comp) (e : Event) : option Comp := exec (handle e) c.

Definition isUnmount (e : Event) : bool :=
  match e with EvUnmount => true | _ => false end.

(** Any events in a row, the unmount and what still fires after it
    included. *)
Fixpoint after (c : Comp) (es : list Event) : option Comp :=
  match es with
  | [] => Some c
  | e :: rest =>
      match step c e with
      | Some c' => after c' rest
      | None => None
      end
  end.

(** The events an instance goes through before React unmounts it: [after],
    on events none of which is the unmount. *)
Fixpoint run (c : Comp) (es : list Event) : option Comp :=
  match es with
  | [] => Some c
  | e :: rest =>
      if isUnmount e then None
      else match step c e with
           | Some c' => run c' rest
           | None => None
           end
  end.

(** *** Reading the log *)

Definition isPlay (e : Effect) : bool :=
  match e with HowlPlay _ => true | _ => false end.

Definition isStop (e : Effect) : bool :=
  match e with HowlStop _ => true | _ => false end.

Definition isFade (e : Effect) : bool :=
  match e with HowlFade _ _ _ _ => true | _ => false end.

Definition isStopTimer (e : Effect) : bool :=
  match e with SetTimeout TStop _ => true | _ => false end.

Definition count (f : Effect -> bool) (l : list Effect) : nat :=
  List.length (filter f l).

(** The loop [loop] publishes in [e]. *)
Definition publishedBy (loop : nat) (e : Effect) : bool :=
  match e with
  | SetProgress (Some l) _ => Nat.eqb l loop
  | _ => false
  end.

(** The run [run] publishes in [e]. *)
Definition drawnBy (run : nat) (e : Effect) : bool :=
  match e with
  | SetIconPoints r _ => Nat.eqb r run
  | _ => false
  end.

Definition isNew (e : Effect) : bool :=
  match e with HowlNew _ _ _ => true | _ => false end.

Definition isUnload (e : Effect) : bool :=
  match e with HowlUnload _ => true | _ => false end.

(** A run publishes although a later call of [animateIcon] has started
    another run; [latest] is the run started last. *)
Fixpoint staleFrom (latest : option nat) (l : list Effect) : bool :=
  match l with
  | [] => false
  | AnimateIcon r _ :: rest => staleFrom (Some r) rest
  | SetIconPoints r _ :: rest =>
      match latest with
      | Some r' => negb (Nat.eqb r r')
      | None => false
      end || staleFrom latest rest
  | _ :: rest => staleFrom latest rest
  end.

Definition staleDraw (l : list Effect) : bool := staleFrom None l.



(** *** What the methods leave behind

    The state each method leaves, written out field by field; the
    equations relating them to the methods are proved below. *)

(** The calls of [setupHowler] on the engine: it reads [this.props], which
    during [componentWillReceiveProps] are the props the component still
    has. *)
Definition rebindCalls (c : Comp) : list Effect :=
  match howler c with
  | Some h => [HowlUnload h]
  | None => []
  end ++ [HowlNew (nextHowl c) (url (props c)) (audioFormat (props c))].

Definition unloadedLive (c : Comp) : list nat :=
  match howler c with
  | Some h => remove Nat.eq_dec h (liveHowls c)
  | None => liveHowls c
  end.

Definition rebindDone (c : Comp) : Comp :=
  mkComp (props c) (state c) (Some (nextHowl c)) (rafQueue c) (timers c)
         (callbacks c) (S (nextHowl c)) (nextHowl c :: unloadedLive c)
         (nextId c) (log c ++ rebindCalls c) (phase c).

(** What [setupHowler] adds to the log of a props update. *)
Definition rebound (c : Comp) (nextProps : Props) : list Effect :=
  if String.eqb (url (props c)) (url nextProps) then [] else rebindCalls c.

(** The run a call of [animateIcon] starts. *)
Definition newRun (shape : string) (now : Z) (c : Comp) : AnimationRun :=
  mkRun (nextId c) now (iconAnimationLength (props c)) (iconPoints (state c))
        (if String.eqb shape "stop" then getStopIconPoints (props c)
         else getPlayIconPoints (props c)).

Definition withProgress (v : num) (s : State) : State :=
  mkState v (loading s) (duration s) (iconPoints s).

Definition playCalls (h : nat) (c : Comp) : list Effect :=
  [HowlPlay h; HowlFade h zero one (fadeInLength (props c));
   AnimateIcon (nextId c) "stop"; SetProgress None zero].

(** [triggerPlayAudio] on a mounted instance, ... *)
Definition playTriggered (now : Z) (h : nat) (c : Comp) : Comp :=
  mkComp (props c) (withProgress zero (state c)) (howler c)
         (rafQueue c ++ [TIcon (newRun "stop" now c)]) (timers c)
         (callbacks c ++ [CbUpdateProgress (S (nextId c))])
         (nextHowl c) (liveHowls c) (S (S (nextId c)))
         (log c ++ playCalls h c) (phase c).

(** ... and on one that is not: the [setState] and its callback are left
    out. *)
Definition playIgnored (now : Z) (h : nat) (c : Comp) : Comp :=
  mkComp (props c) (state c) (howler c)
         (rafQueue c ++ [TIcon (newRun "stop" now c)]) (timers c)
         (callbacks c) (nextHowl c) (liveHowls c) (S (S (nextId c)))
         (log c ++ [HowlPlay h; HowlFade h zero one (fadeInLength (props c));
                    AnimateIcon (nextId c) "stop"])
         (phase c).

Definition stopCalls (h : nat) (c : Comp) : list Effect :=
  [HowlFade h one zero (fadeOutLength (props c));
   SetTimeout TStop (fadeOutLength (props c));
   AnimateIcon (nextId c) "play"; SetProgress None zero].

(** [triggerStopAudio] on a mounted instance, ... *)
Definition stopTriggered (now : Z) (h : nat) (c : Comp) : Comp :=
  mkComp (props c) (withProgress zero (state c)) (howler c)
         (rafQueue c ++ [TIcon (newRun "play" now c)])
         (timers c ++ [(fadeOutLength (props c), TStop)])
         (callbacks c) (nextHowl c) (liveHowls c) (S (nextId c))
         (log c ++ stopCalls h c) (phase c).

(** ... and on one that is not. *)
Definition stopIgnored (now : Z) (h : nat) (c : Comp) : Comp :=
  mkComp (props c) (state c) (howler c)
         (rafQueue c ++ [TIcon (newRun "play" now c)])
         (timers c ++ [(fadeOutLength (props c), TStop)])
         (callbacks c) (nextHowl c) (liveHowls c) (S (nextId c))
         (log c ++ [HowlFade h one zero (fadeOutLength (props c));
                    SetTimeout TStop (fadeOutLength (props c));
                    AnimateIcon (nextId c) "play"])
         (phase c).

(** The trigger chosen by [componentWillReceiveProps]. *)
Definition triggered (nextProps : Props) (now : Z) (c : Comp) : option Comp :=
  if negb (active (props c)) && active nextProps then
    match howler c with
    | Some h =>
        Some (ifMounted (phase c) (playTriggered now h c)
                        (playIgnored now h c))
    | None => None
    end
  else if active (props c) && negb (active nextProps) then
    match howler c with
    | Some h =>
        Some (ifMounted (phase c) (stopTriggered now h c)
                        (stopIgnored now h c))
    | None => None
    end
  else Some c.

Definition callbackTask (k : Callback) : Task :=
  match k with
  | CbUpdateProgress loop => TProgress loop
  end.

(** The end of a props update: the new props are in place and the pending
    [setState] callbacks have run. *)
Definition flushed (nextProps : Props) (c : Comp) : Comp :=
  mkComp nextProps (state c) (howler c)
         (if active nextProps
          then rafQueue c ++ map callbackTask (callbacks c)
          else rafQueue c)
         (timers c) [] (nextHowl c) (liveHowls c) (nextId c) (log c) (phase c).

(** The value a progress frame publishes. *)
Definition ratio (seek : num) (c : Comp) : num :=
  div (mul seek (ofZ 1000)) (toNumber (duration (state c))).

(** A progress frame on a mounted instance, ... *)
Definition progressPublished (loop : nat) (seek : num) (rest : list Task)
  (c : Comp) : Comp :=
  mkComp (props c) (withProgress (ratio seek c) (state c)) (howler c)
         (if active (props c) then rest ++ [TProgress loop] else rest)
         (timers c) (callbacks c) (nextHowl c) (liveHowls c) (nextId c)
         (log c ++ [SetProgress (Some loop) (ratio seek c)]) (phase c).

(** ... and on one that is not: nothing is published, and the loop goes on
    as long as the flag the instance was left with is on. *)
Definition progressIgnored (loop : nat) (rest : list Task) (c : Comp) : Comp :=
  setRafQueue (if active (props c) then rest ++ [TProgress loop] else rest) c.

Definition iconPublished (r : AnimationRun) (pts : Points) (rest : list Task)
  (c : Comp) : Comp :=
  mkComp (props c)
         (mkState (progress (state c)) (loading (state c))
                  (duration (state c)) pts)
         (howler c) (rest ++ [TIcon r]) (timers c) (callbacks c)
         (nextHowl c) (liveHowls c) (nextId c)
         (log c ++ [SetIconPoints (runId r) pts]) (phase c).

(** The load callback on a mounted instance. *)
Definition loadPublished (d : num) (c : Comp) : Comp :=
  mkComp (props c)
         (mkState (progress (state c)) false (Some (mul d (ofZ 1000)))
                  (iconPoints (state c)))
         (howler c) (rafQueue c) (timers c) (callbacks c) (nextHowl c)
         (liveHowls c) (nextId c) (log c ++ [SetLoaded (mul d (ofZ 1000))])
         (phase c).

(** The state an unmount leaves. *)
Definition unmountedFrom (h : nat) (c : Comp) : Comp :=
  mkComp (props c) (state c) (howler c) (rafQueue c) (timers c)
         (callbacks c) (nextHowl c) (remove Nat.eq_dec h (liveHowls c))
         (nextId c) (log c ++ [HowlUnload h]) Unmounted.

(** *** Event sequences *)

Definition isLoad (e : Event) : bool :=
  match e with EvLoad _ => true | _ => false end.

(** The life of a component up to now: mounted first, not unmounted yet. *)
Definition alive (es : list Event) : bool :=
  match es with
  | EvMount :: rest => forallb (fun e => negb (isUnmount e)) rest
  | _ => false
  end.

(** *** Invariants *)

Definition taskId (t : Task) : nat :=
  match t with
  | TProgress loop => loop
  | TIcon r => runId r
  end.

(** The names of the pending frame callbacks are distinct and older than
    the next fresh name. *)
Definition idsOk (q : list Task) (n : nat) : Prop :=
  (forall t, In t q -> taskId t < n) /\ NoDup (map taskId q).

(** The engine holds no session, or the one [this.howler] refers to. *)
Definition liveOk (h : option nat) (live : list nat) : Prop :=
  live = [] \/ exists h', h = Some h' /\ live = [h'].

Record wf (c : Comp) : Prop := mkWf {
  wf_callbacks : callbacks c = [];
  wf_ids : idsOk (rafQueue c) (nextId c);
  wf_live : liveOk (howler c) (liveHowls c)
}.

(** The value of [easeOutCubic] at time [t], from [b] toward [f], over the
    duration [d], when all four are finite and [d] is not zero. *)
Definition easeQ (t b f d : Q) : Q :=
  ((f + - b) * ((t / d + - (1)) * ((t / d + - (1)) * (t / d + - (1))) + 1)
   + b)%Q.

(** A session is bound and live, and every earlier one has been released:
    the log has one [new Howl] more than it has [unload()]. *)
Definition bound (c : Comp) : Prop :=
  exists h,
    howler c = Some h /\ liveHowls c = [h] /\
    count isNew (log c) = S (count isUnload (log c)).

(** *** Comparing published values with the specification *)

(** The specification's clamp of a progress value to [0, 1]:
    [Math.min(1, Math.max(0, x))]. *)
Definition clamp01 (x : num) : num :=
  match x with
  | NaN => NaN
  | _ => if gtb zero x then zero else if gtb x one then one else x
  end.

Definition finitePoint (p : Point) : Prop :=
  isFinite (fst p) = true /\ isFinite (snd p) = true.

Definition finitePoints (pts : Points) : Prop := Forall finitePoint pts.

(** Point by point, the same polygon. *)
Fixpoint samePoints (pts qts : Points) : Prop :=
  match pts, qts with
  | [], [] => True
  | (x, y) :: pts', (x', y') :: qts' =>
      same x x' /\ same y y' /\ samePoints pts' qts'
  | _, _ => False
  end.

(** Point by point, every coordinate of [pts] lies between the coordinate of
    [from] and that of [to]. *)
Fixpoint pointsBetween (from to pts : Points) : Prop :=
  match from, to, pts with
  | [], _, [] => True
  | (x0, y0) :: from', (x1, y1) :: to', (x, y) :: pts' =>
      between x0 x1 x /\ between y0 y1 y /\ pointsBetween from' to' pts'
  | _, _, _ => False
  end.

(** *** The specification's sentences that the code does not follow

    Each is stated at one input, to be compared with what the code does
    there. *)

(** "The published ProgressState equals elapsed time divided by the clip
    duration, clamped to [0, 1]", for the frame of the progress loop that
    runs in [c]. *)
Definition publishesClampedRatio (c : Comp) (now : Z) (seek : num) : Prop :=
  forall loop rest c',
    rafQueue c = TProgress loop :: rest ->
    active (props c) = true ->
    loading (state c) = false ->
    step c (EvFrame now seek) = Some c' ->
    same (progress (state c'))
         (clamp01 (div (mul seek (ofZ 1000))
                       (toNumber (duration (state c))))).

(** "The IconPoints published at time D equal the target shape's points",
    for the frame of the icon run that runs in [c] at time [now]. *)
Definition morphReachesTarget (c : Comp) (now : Z) : Prop :=
  forall r rest seek c',
    rafQueue c = TIcon r :: rest ->
    same (ofZ (now - startTime r)) (runDuration r) ->
    step c (EvFrame now seek) = Some c' ->
    samePoints (iconPoints (state c')) (finalPoints r).


(** "A superseded run stops producing IconPoints updates once superseded",
    along the events [es]. *)
Definition supersededRunsAreSilent (p : Props) (es : list Event) : Prop :=
  forall c, run (constructor p) es = Some c -> staleDraw (log c) = false.

(** "On a change of the audio URL the old session is released, a new one is
    bound to the new identity, the loading flag is true again and no
    progress update uses the old duration", for the update of [c] to
    [nextProps]. *)
Definition urlChangeReloads (c : Comp) (nextProps : Props) (now : Z) : Prop :=
  forall c',
    String.eqb (url (props c)) (url nextProps) = false ->
    step c (EvReceiveProps nextProps now) = Some c' ->
    (exists h h',
       howler c = Some h /\ howler c' = Some h' /\
       In (HowlUnload h) (log c') /\
       In (HowlNew h' (url nextProps) (audioFormat nextProps)) (log c')) /\
    loading (state c') = true /\
    (forall loop rest now' seek c'',
       rafQueue c' = TProgress loop :: rest ->
       step c' (EvFrame now' seek) = Some c'' ->
       log c'' = log c').

End Methods.

(** *** Rendering

    What [render()] returns, as a tree.  A string built from numbers is kept
    as the sequence of its literal pieces and of the numbers put between
    them: the conversion of a number to a string is not modelled. *)

Inductive Piece : Type :=
| Lit (s : string)
| Num (x : num).

Definition Text : Type := list Piece.

(** [items.join(sep)]. *)
Fixpoint join (sep : string) (items : list Text) : Text :=
  match items with
  | [] => []
  | [t] => t
  | t :: rest => t ++ Lit sep :: join sep rest
  end.

(** [Math.PI], the double nearest to pi. *)
Definition Math_PI : num := Fin (884279719003555 # 281474976710656).

(** [Math.floor(x)]. *)
Definition Math_floor (x : num) : num :=
  match x with
  | Fin q => Fin (inject_Z (Qfloor q))
  | _ => x
  end.

(** A [style] object; [strokeDashoffset] is absent except on the progress
    bar. *)
Record Style : Type := mkStyle {
  cursor : string;
  strokeDashoffset : option num
}.

Inductive Element : Type :=
| circle (cx cy r : num) (style : Style) (fill : string)
| path (d : Text) (stroke : string) (strokeWidth strokeDasharray : num)
       (style : Style) (fill : string)
| polygon (points : Text) (style : Style) (fill : string).

(** The [<svg>] element; a child is [None] where [render] puts [null]. *)
Record Svg : Type := mkSvg {
  width : num;
  height : num;
  onClick : M unit;
  children : list (option Element)
}.

(** [p.join(',')] of one point. *)
Definition pointText (p : Point) : Text := [Num (fst p); Lit ","; Num (snd p)].

(** [renderIcon()]. *)
Definition renderIcon (c : Comp) : Element :=
  let points := join " " (map pointText (iconPoints (state c))) in
  polygon points (mkStyle "pointer" None)
          (if active (props c) then playIconColor (props c)
           else stopIconColor (props c)).

(** [renderMainCircle()]. *)
Definition renderMainCircle (c : Comp) : Element :=
  let radius := div (size (props c)) (ofZ 2) in
  circle radius radius radius (mkStyle "pointer" None)
         (if active (props c) then activeBackgroundColor (props c)
          else idleBackgroundColor (props c)).

(** The constants of [renderProgressBar()]. *)
Definition barCenter (c : Comp) : num := div (size (props c)) (ofZ 2).

Definition barDiameter (c : Comp) : num :=
  sub (size (props c)) (progressCircleWidth (props c)).

Definition barRadius (c : Comp) : num := div (barDiameter c) (ofZ 2).

Definition barCircumference (c : Comp) : num := mul (barDiameter c) Math_PI.

Definition progressWidth (c : Comp) : num :=
  Math_floor (sub one (mul (sub one (progress (state c)))
                           (barCircumference c))).

Definition nl : string := String "010" EmptyString.

(** The template literal [circlePath]. *)
Definition circlePath (c : Comp) : Text :=
  [Lit (nl ++ "      M "); Num (barCenter c); Lit ", "; Num (barCenter c);
   Lit (nl ++ "      m 0, -"); Num (barRadius c);
   Lit (nl ++ "      a "); Num (barRadius c); Lit ","; Num (barRadius c);
   Lit " 0 1,0 0,"; Num (barDiameter c);
   Lit (nl ++ "      a "); Num (barRadius c); Lit ","; Num (barRadius c);
   Lit " 0 1,0 0,-"; Num (barDiameter c);
   Lit (nl ++ "    ")].

(** [renderProgressBar()]. *)
Definition renderProgressBar (c : Comp) : Element :=
  path (circlePath c) (progressCircleColor (props c))
       (progressCircleWidth (props c)) (barCircumference c)
       (mkStyle "pointer" (Some (progressWidth c))) "transparent".

(** [render()]. *)
Definition render (c : Comp) : Svg :=
  mkSvg (size (props c)) (size (props c)) clickHandler
        [Some (renderMainCircle c);
         (if active (props c) then Some (renderProgressBar c) else None);
         Some (renderIcon c)].

(** *** Reading a rendered tree *)

(** The numbers of a text, in order. *)
Fixpoint numbers (t : Text) : list num :=
  match t with
  | [] => []
  | Num x :: rest => x :: numbers rest
  | Lit _ :: rest => numbers rest
  end.

(** The coordinates of a polygon, in order. *)
Fixpoint coordinates (pts : Points) : list num :=
  match pts with
  | [] => []
  | (x, y) :: rest => x :: y :: coordinates rest
  end.

(** The dash offset of the progress bar a tree shows, if it shows one. *)
Definition shownOffset (v : Svg) : option num :=
  match nth_error (children v) 1 with
  | Some (Some (path _ _ _ _ st _)) => strokeDashoffset st
  | _ => None
  end.

(** *** Counting along a sequence of events *)

(** The active flag after an event. *)
Definition flagAfter (a : bool) (e : Event) : bool :=
  match e with
  | EvReceiveProps nextProps _ => active nextProps
  | _ => a
  end.

(** The props updates of [es] that turn the flag on, from the flag [a]. *)
Fixpoint activations (a : bool) (es : list Event) : nat :=
  match es with
  | [] => 0
  | e :: rest =>
      (if negb a && flagAfter a e then 1 else 0)
      + activations (flagAfter a e) rest
  end.

(** The props updates of [es] that turn the flag off, from the flag [a]. *)
Fixpoint deactivations (a : bool) (es : list Event) : nat :=
  match es with
  | [] => 0
  | e :: rest =>
      (if a && negb (flagAfter a e) then 1 else 0)
      + deactivations (flagAfter a e) rest
  end.

Definition isProgressTask (t : Task) : bool :=
  match t with TProgress _ => true | TIcon _ => false end.

(** The progress loops that have a frame pending. *)
Definition pendingLoops (c : Comp) : nat :=
  List.length (filter isProgressTask (rafQueue c)).

(** What a click asks the owner of the component for. *)
Definition request (c : Comp) : Effect :=
  if active (props c) then PropsStop else PropsPlay (audioId (props c)).

(** [this.howler], when bound, is a session the engine has created. *)
Definition howlerKnown (c : Comp) : Prop :=
  forall h, howler c = Some h -> h < nextHowl c.

(** *** A concrete component, for closed examples *)

Definition frac (n d : Z) (x : num) : num := div (mul x (ofZ n)) (ofZ d).

(** A triangle whose last two points coincide, and a square, both inset in
    the button. *)
Definition sampleHelpers : IconHelpers := {|
  getPlayIconPoints := fun p =>
    [(frac 1 3 (size p), frac 1 4 (size p));
     (frac 1 3 (size p), frac 3 4 (size p));
     (frac 3 4 (size p), frac 1 2 (size p));
     (frac 3 4 (size p), frac 1 2 (size p))];
  getStopIconPoints := fun p =>
    [(frac 1 4 (size p), frac 1 4 (size p));
     (frac 1 4 (size p), frac 3 4 (size p));
     (frac 3 4 (size p), frac 3 4 (size p));
     (frac 3 4 (size p), frac 1 4 (size p))]
|}.

(** The default props, for the clip [u], with the given [active] flag and
    icon animation length. *)
Definition sampleProps (u : string) (a : bool) (len : num) : Props :=
  mkProps u a "button-1" "mp3" (Fin 45) (Fin 4) "#78A931" "#191b1d" "#191b1d"
          "#FFFFFF" "#FFFFFF" len (Fin 0) (Fin 0).

Definition idleProps : Props := sampleProps "a.mp3" false (Fin 450).
Definition activeProps : Props := sampleProps "a.mp3" true (Fin 450).

(** The state a sequence of events leads to (the constructed one when a
    method throws on the way). *)
Definition stateAfter (p : Props) (es : list Event) : Comp :=
  match run (helpers := sampleHelpers)
            (constructor (helpers := sampleHelpers) p) es with
  | Some c => c
  | None => constructor (helpers := sampleHelpers) p
  end.

(** Mounted and loaded, a clip of one second. *)
Definition loadedEvents : list Event := [EvMount; EvLoad (Fin 1)].

(** Activated at time 0: the icon run is at the head of the frame queue. *)
Definition activatedEvents : list Event :=
  loadedEvents ++ [EvReceiveProps activeProps 0].

(** One frame later: the progress loop is at the head of the frame queue. *)
Definition playingEvents : list Event :=
  activatedEvents ++ [EvFrame 16 (Fin 0)].

(** Deactivated while the progress loop has a frame pending. *)
Definition deactivatedEvents : list Event :=
  playingEvents ++ [EvReceiveProps idleProps 20].

(** Activated before the load callback, then one frame. *)
Definition eagerEvents : list Event :=
  [EvMount; EvReceiveProps activeProps 0; EvFrame 16 (Fin 0)].

(** The first run superseded after 100 ms, ... *)
Definition supersedingEvents : list Event :=
  activatedEvents ++ [EvReceiveProps idleProps 100].

(** ... and its next frame, at 200 ms. *)
Definition supersededEvents : list Event :=
  supersedingEvents ++ [EvFrame 200 (Fin 0)].


(** Activated with an icon animation of length 0. *)
Definition instantEvents : list Event :=
  loadedEvents ++ [EvReceiveProps (sampleProps "a.mp3" true (Fin 0)) 0].

Definition loaded : Comp :=
  Eval vm_compute in stateAfter idleProps loadedEvents.
Definition activated : Comp :=
  Eval vm_compute in stateAfter idleProps activatedEvents.
Definition playing : Comp :=
  Eval vm_compute in stateAfter idleProps playingEvents.
Definition deactivated : Comp :=
  Eval vm_compute in stateAfter idleProps deactivatedEvents.
Definition eager : Comp :=
  Eval vm_compute in stateAfter idleProps eagerEvents.
Definition superseding : Comp :=
  Eval vm_compute in stateAfter idleProps supersedingEvents.
Definition instant : Comp :=
  Eval vm_compute in
    stateAfter (sampleProps "a.mp3" false (Fin 0)) instantEvents.

(** The playing button after a frame for which the engine reports two
    seconds. *)
Definition overrun : Comp :=
  Eval vm_compute in
    stateAfter idleProps (playingEvents ++ [EvFrame 32 (Fin 2)]).

(** The first frame of the animation of length 0, at time 0. *)
Definition instantFrame : Comp :=
  Eval vm_compute in
    stateAfter (sampleProps "a.mp3" false (Fin 0))
               (instantEvents ++ [EvFrame 0 (Fin 0)]).

Definition superseded : Comp :=
  Eval vm_compute in stateAfter idleProps supersededEvents.


(** The run started by the activation at time 0. *)
Definition firstRun : AnimationRun :=
  Eval vm_compute in
  mkRun 0 0 (Fin 450)
        (getPlayIconPoints (IconHelpers := sampleHelpers) idleProps)
        (getStopIconPoints (IconHelpers := sampleHelpers) idleProps).

(** The same button for another clip. *)
Definition otherClip : Props := sampleProps "b.mp3" false (Fin 450).

(** The loaded button after its URL has changed. *)
Definition relinked : Comp :=
  Eval vm_compute in
    stateAfter idleProps (loadedEvents ++ [EvReceiveProps otherClip 0]).

(** The deactivated button, unmounted with a frame of the progress loop, two
    icon runs and the stop timer still pending. *)
Definition unmounted : Comp :=
  Eval vm_compute in
    match step (helpers := sampleHelpers) deactivated EvUnmount with
    | Some c => c
    | None => deactivated
    end.

(* ------------------------------------------------------------------ *)
(** ** Properties *)
(* ------------------------------------------------------------------ *)

Create HintDb wf.

Unset Implicit Arguments.

Ltac unfold_methods :=
  cbv [triggerPlayAudio triggerStopAudio setupHowler animateIcon
       updatePosition updateProgress progressFrame iconFrame timeout onload
       clickHandler componentWillUnmount howlPlay howlFade howlStop
       howlUnload newHowl thisHowler setProgress setIconPoints setLoaded
       whenMounted ifMounted mount unmount componentWillMount
       requestAnimationFrame setTimeout afterUpdate fresh emit bind ret get
       modify throw undelivered setProps setStateOf setHowler setRafQueue
       setTimers setCallbacks setEngine setNextId setLog setPhase
       props state howler rafQueue timers callbacks nextHowl liveHowls
       nextId log phase].

Ltac open_comp c :=
  destruct c as [cp cs ch cq ct ck cn cl ci cg cph];
  cbn [props state howler rafQueue timers callbacks nextHowl liveHowls
       nextId log phase] in *;
  subst.

Ltac done_step H := inversion H; subst; clear H.

Section Properties.

Context {helpers : IconHelpers}.

(** *** Lists *)

Lemma in_snoc (A : Type) (l : list A) (x y : A) :
  In y (l ++ [x]) <-> In y l \/ y = x.
Proof.
  rewrite in_app_iff. cbn. intuition congruence.
Qed.

Lemma NoDup_snoc (A : Type) (l : list A) (x : A) :
  NoDup l -> ~ In x l -> NoDup (l ++ [x]).
Proof.
  intros Hl Hx.
  apply NoDup_app; [assumption | repeat constructor; intros [] | ].
  intros a Ha [<- | []]. exact (Hx Ha).
Qed.

Lemma count_app (f : Effect -> bool) (l1 l2 : list Effect) :
  count f (l1 ++ l2) = count f l1 + count f l2.
Proof.
  unfold count. now rewrite filter_app, length_app.
Qed.

Lemma count_zero (f : Effect -> bool) (l : list Effect) :
  count f l = 0 <-> forall e, In e l -> f e = false.
Proof.
  unfold count. induction l as [|a l IH]; cbn.
  - split; [intros _ e [] | reflexivity].
  - destruct (f a) eqn:Fa; cbn.
    + split; [discriminate|]. intros H. specialize (H a (or_introl eq_refl)).
      congruence.
    + rewrite IH. split.
      * intros H e [<- | He]; auto.
      * intros H e He. apply H. now right.
Qed.

(** *** The methods, evaluated *)

Lemma setupHowler_eq c : setupHowler c = Some (tt, rebindDone c).
Proof.
  open_comp c. destruct ch as [h|]; cbn; unfold rebindDone, rebindCalls;
    cbn; rewrite <- ?app_assoc; reflexivity.
Qed.

Lemma animateIcon_eq shape now c :
  animateIcon shape now c =
  Some (tt, mkComp (props c) (state c) (howler c)
                   (rafQueue c ++ [TIcon (newRun shape now c)]) (timers c)
                   (callbacks c) (nextHowl c) (liveHowls c) (S (nextId c))
                   (log c ++ [AnimateIcon (nextId c) shape]) (phase c)).
Proof.
  open_comp c. reflexivity.
Qed.

Lemma triggerPlayAudio_eq now c :
  triggerPlayAudio now c =
  match howler c with
  | Some h =>
      Some (tt, ifMounted (phase c) (playTriggered now h c)
                          (playIgnored now h c))
  | None => None
  end.
Proof.
  open_comp c. destruct ch as [h|]; [|reflexivity].
  destruct cph; unfold_methods; cbn;
    unfold playTriggered, playIgnored, playCalls; cbn;
    rewrite <- ?app_assoc; reflexivity.
Qed.

Lemma triggerStopAudio_eq now c :
  triggerStopAudio now c =
  match howler c with
  | Some h =>
      Some (tt, ifMounted (phase c) (stopTriggered now h c)
                          (stopIgnored now h c))
  | None => None
  end.
Proof.
  open_comp c. destruct ch as [h|]; [|reflexivity].
  destruct cph; unfold_methods; cbn;
    unfold stopTriggered, stopIgnored, stopCalls; cbn;
    rewrite <- ?app_assoc; reflexivity.
Qed.

Lemma componentWillReceiveProps_eq nextProps now c :
  componentWillReceiveProps nextProps now c =
  match triggered nextProps now c with
  | Some c1 =>
      Some (tt, if String.eqb (url (props c)) (url nextProps) then c1
                else rebindDone c1)
  | None => None
  end.
Proof.
  unfold componentWillReceiveProps, triggered, bind, get.
  destruct (negb (active (props c)) && active nextProps).
  - rewrite triggerPlayAudio_eq. destruct (howler c); [|reflexivity].
    destruct (String.eqb (url (props c)) (url nextProps)); cbn [negb];
      [reflexivity | apply setupHowler_eq].
  - destruct (active (props c) && negb (active nextProps)).
    + rewrite triggerStopAudio_eq. destruct (howler c); [|reflexivity].
      destruct (String.eqb (url (props c)) (url nextProps)); cbn [negb];
        [reflexivity | apply setupHowler_eq].
    + destruct (String.eqb (url (props c)) (url nextProps)); cbn [negb];
        [reflexivity | apply setupHowler_eq].
Qed.

Lemma updateProgress_eq loop c :
  updateProgress loop c =
  Some (tt, if active (props c)
            then setRafQueue (rafQueue c ++ [TProgress loop]) c
            else c).
Proof.
  unfold updateProgress, bind, get. destruct (active (props c)); reflexivity.
Qed.

Lemma runCallbacks_eq ks : forall c,
  runCallbacks ks c =
  Some (tt, if active (props c)
            then setRafQueue (rafQueue c ++ map callbackTask ks) c
            else c).
Proof.
  induction ks as [|[loop] ks IH]; intros c; cbn.
  - open_comp c. destruct (active cp); cbn; rewrite ?app_nil_r; reflexivity.
  - unfold bind. rewrite updateProgress_eq, IH.
    open_comp c. destruct (active cp) eqn:Ha; cbn; rewrite ?Ha;
      unfold setRafQueue; cbn; rewrite <- ?app_assoc; reflexivity.
Qed.

(** *** The events, evaluated *)

Lemma step_mount c :
  step c EvMount =
  match phase c with
  | Constructed => Some (rebindDone (setPhase Mounted c))
  | _ => None
  end.
Proof.
  unfold step, exec, handle, mount, componentWillMount, bind at 1, get.
  destruct (phase c); try reflexivity.
  unfold bind, modify. now rewrite setupHowler_eq.
Qed.

Lemma step_receive c nextProps now :
  step c (EvReceiveProps nextProps now) =
  match triggered nextProps now c with
  | Some c1 =>
      Some (flushed nextProps
              (if String.eqb (url (props c)) (url nextProps) then c1
               else rebindDone c1))
  | None => None
  end.
Proof.
  unfold step, exec, handle, receiveProps, bind at 1.
  rewrite componentWillReceiveProps_eq.
  destruct (triggered nextProps now c) as [c1|]; [|reflexivity].
  generalize (if String.eqb (url (props c)) (url nextProps) then c1
              else rebindDone c1).
  intros c2. unfold bind, modify, get. rewrite runCallbacks_eq.
  open_comp c2. unfold flushed. cbn. destruct (active nextProps); reflexivity.
Qed.

Lemma step_frame c now seek :
  step c (EvFrame now seek) =
  match rafQueue c with
  | [] => Some c
  | TProgress loop :: rest =>
      match howler c with
      | Some _ =>
          Some (ifMounted (phase c) (progressPublished loop seek rest c)
                          (progressIgnored loop rest c))
      | None => None
      end
  | TIcon r :: rest =>
      if gtb (ofZ (now - startTime r)) (runDuration r)
      then Some (setRafQueue rest c)
      else match morph (ofZ (now - startTime r)) (runDuration r)
                       (initialPoints r) (finalPoints r) with
           | Some pts =>
               Some (ifMounted (phase c) (iconPublished r pts rest c)
                               (setRafQueue rest c))
           | None => None
           end
  end.
Proof.
  open_comp c. unfold step, exec, handle, animationFrame.
  destruct cq as [|[loop|r] rest].
  - reflexivity.
  - destruct ch as [h|]; [|reflexivity].
    unfold progressPublished, progressIgnored, ratio, withProgress.
    destruct cph; unfold_methods; cbn; destruct (active cp); reflexivity.
  - unfold iconFrame, bind at 1, get, bind at 1, modify. cbn -[gtb morph].
    destruct (gtb (ofZ (now - startTime r)) (runDuration r)); [reflexivity|].
    destruct (morph (ofZ (now - startTime r)) (runDuration r)
                    (initialPoints r) (finalPoints r)); [|reflexivity].
    destruct cph; reflexivity.
Qed.

Lemma step_timeout c k :
  step c (EvTimeout k) =
  match nth_error (timers c) k with
  | None => Some c
  | Some (_, TStop) =>
      match howler c with
      | Some h =>
          Some (mkComp (props c) (state c) (howler c) (rafQueue c)
                       (removeAt k (timers c)) (callbacks c) (nextHowl c)
                       (liveHowls c) (nextId c) (log c ++ [HowlStop h])
                       (phase c))
      | None => None
      end
  end.
Proof.
  open_comp c. unfold step, exec, handle, timeout, bind at 1, get. cbn.
  destruct (nth_error ct k) as [[d []]|]; [|reflexivity].
  destruct ch; reflexivity.
Qed.

Lemma step_load c d :
  step c (EvLoad d) =
  match howler c with
  | Some _ => Some (ifMounted (phase c) (loadPublished d c) c)
  | None => None
  end.
Proof.
  open_comp c. destruct ch; [|reflexivity]. destruct cph; reflexivity.
Qed.

Lemma step_click c :
  step c EvClick =
  Some (setLog (log c ++ [if active (props c) then PropsStop
                          else PropsPlay (audioId (props c))]) c).
Proof.
  open_comp c. unfold step, exec, handle, clickHandler, bind, get. cbn.
  destruct (active cp); reflexivity.
Qed.

Lemma step_unmount c :
  step c EvUnmount =
  match phase c with
  | Mounted =>
      match howler c with
      | Some h => Some (unmountedFrom h c)
      | None => None
      end
  | _ => None
  end.
Proof.
  open_comp c. destruct cph; try reflexivity. destruct ch; reflexivity.
Qed.

Lemma run_cons c e es :
  run c (e :: es) =
  if isUnmount e then None
  else match step c e with
       | Some c1 => run c1 es
       | None => None
       end.
Proof.
  reflexivity.
Qed.

(** One more event: the unmount is not among those [run] follows. *)
Lemma run_step c e es c' :
  run c (e :: es) = Some c' ->
  exists c1, isUnmount e = false /\ step c e = Some c1 /\ run c1 es = Some c'.
Proof.
  rewrite run_cons. destruct (isUnmount e); [discriminate|].
  destruct (step c e) as [c1|]; [|discriminate].
  intros H. now exists c1.
Qed.

(** *** The invariant *)

Lemma idsOk_snoc q n t : idsOk q n -> taskId t = n -> idsOk (q ++ [t]) (S n).
Proof.
  intros [Hf Hn] Ht. split.
  - intros u Hu. apply in_snoc in Hu. destruct Hu as [Hu | ->]; [|lia].
    specialize (Hf u Hu). lia.
  - rewrite map_app. cbn. apply NoDup_snoc; [assumption|].
    intros Hin. apply in_map_iff in Hin. destruct Hin as [u [Hu Hin]].
    specialize (Hf u Hin). lia.
Qed.

Lemma idsOk_weaken q n m : idsOk q n -> n <= m -> idsOk q m.
Proof.
  intros [Hf Hn] Hm. split; [|assumption].
  intros t Ht. specialize (Hf t Ht). lia.
Qed.

Lemma idsOk_tail t q n : idsOk (t :: q) n -> idsOk q n.
Proof.
  intros [Hf Hn]. split.
  - intros u Hu. apply Hf. now right.
  - now inversion Hn.
Qed.

Lemma idsOk_rotate t q n : idsOk (t :: q) n -> idsOk (q ++ [t]) n.
Proof.
  intros [Hf Hn]. split.
  - intros u Hu. apply in_snoc in Hu. apply Hf. cbn. intuition.
  - rewrite map_app. cbn. cbn in Hn. inversion Hn; subst.
    now apply NoDup_snoc.
Qed.

Lemma idsOk_head t q n : idsOk (t :: q) n -> ~ In (taskId t) (map taskId q).
Proof.
  intros [_ Hn]. cbn in Hn. now inversion Hn.
Qed.

Lemma liveOk_bind c : liveOk (howler c) (liveHowls c) ->
  liveOk (Some (nextHowl c)) (nextHowl c :: unloadedLive c).
Proof.
  unfold unloadedLive.
  intros [-> | [h' [-> ->]]]; right; exists (nextHowl c); split;
    try reflexivity.
  - destruct (howler c); reflexivity.
  - cbn. destruct (Nat.eq_dec h' h'); congruence.
Qed.

Lemma liveOk_unload h live :
  liveOk (Some h) live -> remove Nat.eq_dec h live = [].
Proof.
  intros [-> | [h' [Hh ->]]]; [reflexivity|]. inversion Hh; subst.
  cbn. destruct (Nat.eq_dec h' h'); congruence.
Qed.

#[local] Hint Resolve idsOk_snoc idsOk_tail idsOk_rotate : wf.

Ltac unfold_states :=
  unfold flushed, rebindDone, playTriggered, playIgnored, stopTriggered,
    stopIgnored, progressPublished, progressIgnored, iconPublished,
    loadPublished, unmountedFrom, newRun, setRafQueue, setLog, setPhase,
    ifMounted in *;
  cbn [props state howler rafQueue timers callbacks nextHowl liveHowls
       nextId log phase map callbackTask app] in *.

Lemma wf_constructor p : wf (constructor p).
Proof.
  constructor; cbn; [reflexivity | | now left].
  split; [intros t [] | constructor].
Qed.

Lemma wf_rebindDone c : wf c -> wf (rebindDone c).
Proof.
  intros [Hk Hi Hl]. constructor; unfold_states; auto.
  now apply liveOk_bind.
Qed.

Lemma wf_flushed nextProps c :
  idsOk (rafQueue c ++ map callbackTask (callbacks c)) (nextId c) ->
  idsOk (rafQueue c) (nextId c) ->
  liveOk (howler c) (liveHowls c) ->
  wf (flushed nextProps c).
Proof.
  intros Hall Hq Hl. constructor; unfold flushed; cbn; auto.
  destruct (active nextProps); assumption.
Qed.

Ltac project :=
  cbn [props state howler rafQueue timers callbacks nextHowl liveHowls
       nextId log phase map callbackTask app].

Lemma wf_step c e c' : wf c -> step c e = Some c' -> wf c'.
Proof.
  intros W H. pose proof W as [Hk Hi Hl]. destruct e.
  - rewrite step_mount in H. destruct (phase c); try discriminate.
    done_step H. apply wf_rebindDone. now constructor.
  - rewrite step_receive in H. unfold triggered in H.
    assert (Hplay :
      idsOk ((rafQueue c ++ [TIcon (newRun "stop" now c)])
             ++ [TProgress (S (nextId c))]) (S (S (nextId c)))).
    { apply idsOk_snoc; [|reflexivity].
      apply idsOk_snoc; [assumption|reflexivity]. }
    assert (Hnew : forall shape,
      idsOk (rafQueue c ++ [TIcon (newRun shape now c)]) (S (nextId c))).
    { intros shape. apply idsOk_snoc; [assumption|reflexivity]. }
    destruct (active (props c)), (active nextProps),
             (String.eqb (url (props c)) (url nextProps)),
             (howler c) as [h|] eqn:Hh, (phase c);
      cbn [negb andb ifMounted] in H; done_step H;
      apply wf_flushed; unfold rebindDone; project;
      try apply liveOk_bind;
      unfold playTriggered, playIgnored, stopTriggered, stopIgnored; project;
      rewrite ?Hk, ?Hh; project; rewrite ?app_nil_r; auto.
    all: try (eapply idsOk_weaken; [apply Hnew | lia]).
    all: try (eapply idsOk_weaken; [apply Hplay | lia]).
  - rewrite step_frame in H.
    destruct (rafQueue c) as [|[loop|r] rest] eqn:Hq; rewrite ?Hq in Hi.
    + now done_step H.
    + destruct (howler c) eqn:Hh; [|discriminate]. done_step H.
      destruct (phase c); constructor; unfold_states; rewrite ?Hh; auto;
        destruct (active (props c)); eauto with wf.
    + destruct (gtb (ofZ (now - startTime r)) (runDuration r)).
      * done_step H. constructor; unfold_states; eauto with wf.
      * destruct (morph (ofZ (now - startTime r)) (runDuration r)
                        (initialPoints r) (finalPoints r));
          [|discriminate].
        done_step H.
        destruct (phase c); constructor; unfold_states; eauto with wf.
  - rewrite step_timeout in H.
    destruct (nth_error (timers c) k) as [[d []]|].
    + destruct (howler c); [|discriminate]. done_step H.
      constructor; cbn; auto.
    + now done_step H.
  - rewrite step_load in H. destruct (howler c) eqn:Hh; [|discriminate].
    done_step H. destruct (phase c); constructor; cbn; rewrite ?Hh; auto.
  - rewrite step_click in H. done_step H. constructor; cbn; auto.
  - rewrite step_unmount in H. destruct (phase c); try discriminate.
    destruct (howler c) as [h|]; [|discriminate].
    done_step H. constructor; cbn; auto.
    left. now apply liveOk_unload.
Qed.

Lemma wf_run es : forall c c', wf c -> run c es = Some c' -> wf c'.
Proof.
  induction es as [|e es IH]; intros c c' W H.
  - cbn in H. now done_step H.
  - apply run_step in H. destruct H as [c1 [_ [E H]]].
    eapply IH; [|exact H]. eapply wf_step; eauto.
Qed.

Lemma wf_after es : forall c c', wf c -> after c es = Some c' -> wf c'.
Proof.
  induction es as [|e es IH]; cbn; intros c c' W H.
  - now done_step H.
  - destruct (step c e) as [c1|] eqn:E; [|discriminate].
    eapply IH; [|exact H]. eapply wf_step; eauto.
Qed.

(** What [run] follows is a special case of what [after] follows. *)
Lemma run_after es : forall c c', run c es = Some c' -> after c es = Some c'.
Proof.
  induction es as [|e es IH]; intros c c' H; [exact H|].
  apply run_step in H. destruct H as [c1 [_ [E H]]].
  cbn [after]. rewrite E. now apply IH.
Qed.

(** The two agree on events that have no unmount among them. *)
Lemma run_without_unmount es : forall c,
  forallb (fun e => negb (isUnmount e)) es = true ->
  run c es = after c es.
Proof.
  induction es as [|e es IH]; intros c Hu; [reflexivity|].
  cbn [forallb] in Hu. apply andb_prop in Hu. destruct Hu as [He Hu].
  apply negb_true_iff in He. rewrite run_cons, He. cbn [after].
  destruct (step c e); [now apply IH | reflexivity].
Qed.

Lemma wf_reachable p es c : run (constructor p) es = Some c -> wf c.
Proof.
  apply wf_run, wf_constructor.
Qed.

Lemma run_app es1 : forall es2 c,
  run c (es1 ++ es2) =
  match run c es1 with
  | Some c1 => run c1 es2
  | None => None
  end.
Proof.
  induction es1 as [|e es1 IH]; intros es2 c; [reflexivity|].
  cbn [app]. rewrite !run_cons. destruct (isUnmount e); [reflexivity|].
  destruct (step c e); [apply IH | reflexivity].
Qed.

(** Once bound, [this.howler] stays bound. *)
Lemma step_howler c e c' :
  step c e = Some c' -> howler c <> None -> howler c' <> None.
Proof.
  intros H Hh. destruct (howler c) as [h|] eqn:Eh; [clear Hh | congruence].
  destruct e.
  - rewrite step_mount in H. destruct (phase c); try discriminate.
    done_step H. discriminate.
  - rewrite step_receive in H. unfold triggered in H. rewrite Eh in H.
    destruct (negb (active (props c)) && active nextProps),
             (active (props c) && negb (active nextProps)),
             (String.eqb (url (props c)) (url nextProps)), (phase c);
      done_step H; unfold_states; congruence.
  - rewrite step_frame in H. rewrite Eh in H.
    destruct (rafQueue c) as [|[loop|r] rest].
    + done_step H. congruence.
    + done_step H. destruct (phase c); cbn; congruence.
    + destruct (gtb (ofZ (now - startTime r)) (runDuration r)).
      * done_step H. cbn. congruence.
      * destruct (morph (ofZ (now - startTime r)) (runDuration r)
                        (initialPoints r) (finalPoints r));
          [|discriminate].
        done_step H. destruct (phase c); cbn; congruence.
  - rewrite step_timeout in H. rewrite Eh in H.
    destruct (nth_error (timers c) k) as [[d []]|]; done_step H; cbn;
      congruence.
  - rewrite step_load in H. rewrite Eh in H. done_step H.
    destruct (phase c); cbn; congruence.
  - rewrite step_click in H. done_step H. cbn. congruence.
  - rewrite step_unmount in H. rewrite Eh in H.
    destruct (phase c); try discriminate. done_step H. cbn. congruence.
Qed.

Lemma run_howler es : forall c c',
  run c es = Some c' -> howler c <> None -> howler c' <> None.
Proof.
  induction es as [|e es IH]; intros c c' H Hh.
  - cbn in H. now done_step H.
  - apply run_step in H. destruct H as [c1 [_ [E H]]].
    eapply IH; [exact H|]. eapply step_howler; eauto.
Qed.

(** While React keeps it, a mounted instance stays mounted. *)
Lemma step_phase c e c' :
  step c e = Some c' -> isUnmount e = false -> phase c = Mounted ->
  phase c' = Mounted.
Proof.
  intros H Hu Hp. destruct e; try discriminate.
  - rewrite step_mount, Hp in H. discriminate.
  - rewrite step_receive in H. unfold triggered in H. rewrite Hp in H.
    destruct (negb (active (props c)) && active nextProps),
             (active (props c) && negb (active nextProps)),
             (String.eqb (url (props c)) (url nextProps)),
             (howler c) as [h|];
      done_step H; exact Hp.
  - rewrite step_frame in H. rewrite Hp in H.
    destruct (rafQueue c) as [|[loop|r] rest].
    + now done_step H.
    + destruct (howler c); [|discriminate]. now done_step H.
    + destruct (gtb (ofZ (now - startTime r)) (runDuration r)).
      * now done_step H.
      * destruct (morph (ofZ (now - startTime r)) (runDuration r)
                        (initialPoints r) (finalPoints r));
          [|discriminate].
        now done_step H.
  - rewrite step_timeout in H.
    destruct (nth_error (timers c) k) as [[d []]|].
    + destruct (howler c); [|discriminate]. now done_step H.
    + now done_step H.
  - rewrite step_load in H. rewrite Hp in H.
    destruct (howler c); [|discriminate]. now done_step H.
  - rewrite step_click in H. now done_step H.
Qed.

Lemma run_phase es : forall c c',
  run c es = Some c' -> phase c = Mounted -> phase c' = Mounted.
Proof.
  induction es as [|e es IH]; intros c c' H Hp.
  - cbn in H. now done_step H.
  - apply run_step in H. destruct H as [c1 [Hu [E H]]].
    apply (IH c1 c' H). exact (step_phase c e c1 E Hu Hp).
Qed.

(** A mounted component is bound to a session and has no [setState] callback
    left over. *)
Lemma mounted_bound p es c :
  run (constructor p) (EvMount :: es) = Some c ->
  (exists h, howler c = Some h) /\ callbacks c = [].
Proof.
  intros H. split.
  - rewrite run_cons, step_mount in H. cbn [isUnmount constructor phase] in H.
    assert (Hh : howler c <> None).
    { apply (run_howler _ _ _ H). discriminate. }
    destruct (howler c) as [h|]; [now exists h | congruence].
  - apply (wf_callbacks (wf_reachable _ _ _ H)).
Qed.

(** An instance that has been mounted is mounted for as long as React keeps
    it. *)
Lemma mounted_phase p es c :
  run (constructor p) (EvMount :: es) = Some c -> phase c = Mounted.
Proof.
  intros H.
  rewrite run_cons, step_mount in H. cbn [isUnmount constructor phase] in H.
  apply (run_phase _ _ _ H). reflexivity.
Qed.

(** *** What one event adds to the log *)

Ltac split_delta :=
  first [ exists []; split; [unfold_states; now rewrite app_nil_r|]
        | eexists; split;
          [unfold_states; rewrite <- ?app_assoc; reflexivity|] ].

Ltac scan_delta Hin :=
  unfold playCalls, stopCalls, rebindCalls in Hin; unfold_states;
  repeat first
    [ rewrite in_app_iff in Hin
    | match type of Hin with
      | context [match ?x with Some _ => _ | None => _ end] => destruct x
      end ];
  cbn [In app] in Hin; intuition (try discriminate).

(** The log only grows; only a frame of a loop publishes in the name of
    that loop, and only a frame of a run in the name of that run: the loop
    or the run is then at the head of the frame queue. *)
Lemma step_published c e c' :
  step c e = Some c' ->
  exists delta,
    log c' = log c ++ delta /\
    (forall loop v,
       In (SetProgress (Some loop) v) delta ->
       exists now seek rest,
         e = EvFrame now seek /\ rafQueue c = TProgress loop :: rest /\
         v = ratio seek c) /\
    (forall id pts,
       In (SetIconPoints id pts) delta ->
       exists now seek r rest,
         e = EvFrame now seek /\ rafQueue c = TIcon r :: rest /\
         runId r = id).
Proof.
  intros H. destruct e.
  - rewrite step_mount in H. destruct (phase c); try discriminate.
    done_step H. split_delta.
    split; intros ? ? Hin; scan_delta Hin.
  - rewrite step_receive in H. unfold triggered in H.
    destruct (negb (active (props c)) && active nextProps),
             (active (props c) && negb (active nextProps)),
             (String.eqb (url (props c)) (url nextProps)),
             (howler c) as [h|] eqn:Hh, (phase c);
      done_step H; split_delta; split; intros ? ? Hin; scan_delta Hin.
  - rewrite step_frame in H.
    destruct (rafQueue c) as [|[loop|r] rest] eqn:Hq.
    + done_step H. split_delta. split; intros ? ? [].
    + destruct (howler c); [|discriminate]. done_step H.
      destruct (phase c); split_delta;
        (split; intros ? ? Hin; [|scan_delta Hin]);
        first [ now destruct Hin
              | destruct Hin as [Hin | []]; inversion Hin; subst;
                exists now, seek, rest; auto ].
    + destruct (gtb (ofZ (now - startTime r)) (runDuration r)).
      * done_step H. split_delta. split; intros ? ? [].
      * destruct (morph (ofZ (now - startTime r)) (runDuration r)
                        (initialPoints r) (finalPoints r));
          [|discriminate].
        done_step H.
        destruct (phase c); split_delta;
          (split; intros ? ? Hin; [scan_delta Hin|]);
          first [ now destruct Hin
                | destruct Hin as [Hin | []]; inversion Hin; subst;
                  exists now, seek, r, rest; auto ].
  - rewrite step_timeout in H.
    destruct (nth_error (timers c) k) as [[d []]|].
    + destruct (howler c); [|discriminate]. done_step H. split_delta.
      split; intros ? ? Hin; scan_delta Hin.
    + done_step H. split_delta. split; intros ? ? [].
  - rewrite step_load in H. destruct (howler c); [|discriminate].
    done_step H.
    destruct (phase c); split_delta; split; intros ? ? Hin; scan_delta Hin.
  - rewrite step_click in H. done_step H. split_delta.
    split; intros ? ? Hin; destruct (active (props c)); scan_delta Hin.
  - rewrite step_unmount in H. destruct (phase c); try discriminate.
    destruct (howler c); [|discriminate].
    done_step H. split_delta. split; intros ? ? Hin; scan_delta Hin.
Qed.

(** Fresh names only grow, and a frame callback in the queue after an event
    was there before or is new. *)
Lemma step_queue c e c' :
  step c e = Some c' ->
  callbacks c = [] ->
  nextId c <= nextId c' /\
  forall t, In t (rafQueue c') ->
            In t (rafQueue c) \/ nextId c <= taskId t.
Proof.
  intros H Hk. destruct e.
  - rewrite step_mount in H. destruct (phase c); try discriminate.
    done_step H. cbn. auto.
  - rewrite step_receive in H. unfold triggered in H.
    destruct (negb (active (props c)) && active nextProps),
             (active (props c) && negb (active nextProps)),
             (String.eqb (url (props c)) (url nextProps)),
             (howler c) as [h|], (active nextProps) eqn:Hn, (phase c);
      done_step H; unfold_states; rewrite ?Hn, ?Hk; cbn [map callbackTask];
      (split; [lia|]); intros t Hin;
      repeat (apply in_app_iff in Hin; destruct Hin as [Hin | Hin]);
      auto; cbn [In map callbackTask app] in Hin;
      intuition (subst; cbn; auto; lia).
  - rewrite step_frame in H.
    destruct (rafQueue c) as [|[loop|r] rest] eqn:Hq.
    + done_step H. rewrite Hq. auto.
    + destruct (howler c); [|discriminate]. done_step H.
      destruct (phase c); unfold_states;
        (split; [lia|]); intros t Hin; left;
        (destruct (active (props c)); [|now right]);
        apply in_snoc in Hin; cbn; intuition.
    + destruct (gtb (ofZ (now - startTime r)) (runDuration r)).
      * done_step H. unfold_states. split; [lia|]. intros t Hin. left.
        now right.
      * destruct (morph (ofZ (now - startTime r)) (runDuration r)
                        (initialPoints r) (finalPoints r));
          [|discriminate].
        done_step H.
        destruct (phase c); unfold_states;
          (split; [lia|]); intros t Hin; left;
          first [ now right | apply in_snoc in Hin; cbn; intuition ].
  - rewrite step_timeout in H.
    destruct (nth_error (timers c) k) as [[d []]|].
    + destruct (howler c); [|discriminate]. done_step H. cbn. auto.
    + done_step H. auto.
  - rewrite step_load in H. destruct (howler c); [|discriminate].
    done_step H. destruct (phase c); cbn; auto.
  - rewrite step_click in H. done_step H. cbn. auto.
  - rewrite step_unmount in H. destruct (phase c); try discriminate.
    destruct (howler c); [|discriminate].
    done_step H. cbn. auto.
Qed.

(** Only the load callback records a duration. *)
Lemma step_duration c e c' :
  step c e = Some c' -> isLoad e = false ->
  duration (state c') = duration (state c).
Proof.
  intros H Hl. destruct e; try discriminate.
  - rewrite step_mount in H. destruct (phase c); try discriminate.
    now done_step H.
  - rewrite step_receive in H. unfold triggered in H.
    destruct (negb (active (props c)) && active nextProps),
             (active (props c) && negb (active nextProps)),
             (String.eqb (url (props c)) (url nextProps)),
             (howler c) as [h|], (phase c);
      done_step H; reflexivity.
  - rewrite step_frame in H.
    destruct (rafQueue c) as [|[loop|r] rest].
    + now done_step H.
    + destruct (howler c); [|discriminate]. done_step H.
      now destruct (phase c).
    + destruct (gtb (ofZ (now - startTime r)) (runDuration r)).
      * now done_step H.
      * destruct (morph (ofZ (now - startTime r)) (runDuration r)
                        (initialPoints r) (finalPoints r));
          [|discriminate].
        done_step H. now destruct (phase c).
  - rewrite step_timeout in H.
    destruct (nth_error (timers c) k) as [[d []]|].
    + destruct (howler c); [|discriminate]. now done_step H.
    + now done_step H.
  - rewrite step_click in H. now done_step H.
  - rewrite step_unmount in H. destruct (phase c); try discriminate.
    destruct (howler c); [|discriminate].
    now done_step H.
Qed.

(** *** Numbers *)

Lemma div_pos (a d : Q) : (0 < d)%Q -> div (Fin a) (Fin d) = Fin (a / d).
Proof.
  intros Hd. unfold div. destruct (Qeq_bool d 0) eqn:E; [|reflexivity].
  apply Qeq_bool_iff in E. lra.
Qed.

Lemma div_undefined (x : num) : div x (toNumber None) = NaN.
Proof.
  destruct x; reflexivity.
Qed.

Lemma ratio_bounds (e d : Q) :
  (0 < d)%Q -> (0 <= e <= d)%Q -> (0 <= e / d <= 1)%Q.
Proof.
  intros Hd [H0 H1]. split.
  - apply Qle_shift_div_l; lra.
  - apply Qle_shift_div_r; lra.
Qed.

(** *** The progress loop *)

(** C1, as the code has it: on a mounted component a frame of the progress
    loop publishes [seek * 1000 / duration] as it is, without clamping; when
    the elapsed time lies between 0 and a positive duration the value lies
    in [0, 1], it is 0 at elapsed 0 and 1 at elapsed equal to the
    duration. *)
Theorem c1_progress_is_unclamped_ratio c loop rest now seek h :
  phase c = Mounted ->
  rafQueue c = TProgress loop :: rest ->
  howler c = Some h ->
  exists c',
    step c (EvFrame now seek) = Some c' /\
    progress (state c') =
      div (mul seek (ofZ 1000)) (toNumber (duration (state c))) /\
    log c' = log c ++ [SetProgress (Some loop) (progress (state c'))] /\
    forall s d,
      seek = Fin s -> duration (state c) = Some (Fin d) ->
      (0 < d)%Q -> (0 <= s * 1000 <= d)%Q ->
      exists q,
        progress (state c') = Fin q /\ (0 <= q <= 1)%Q /\
        (s * 1000 == 0 -> q == 0)%Q /\ (s * 1000 == d -> q == 1)%Q.
Proof.
  intros Hp Hq Hh. rewrite step_frame, Hq, Hh, Hp. cbn [ifMounted].
  eexists; split; [reflexivity|]. unfold progressPublished, ratio; cbn.
  repeat split.
  intros s d -> Hd Hpos Hrange. rewrite Hd. cbn [toNumber mul ofZ].
  rewrite div_pos by assumption.
  exists (s * inject_Z 1000 / d)%Q. split; [reflexivity|].
  change (inject_Z 1000) with 1000%Q.
  split; [now apply ratio_bounds|]. split; intros E.
  - rewrite E. field. lra.
  - rewrite E. field. lra.
Qed.

Lemma unloaded_after es : forall c c',
  after c es = Some c' ->
  forallb (fun e => negb (isLoad e)) es = true ->
  duration (state c) = None ->
  (forall loop v, In (SetProgress (Some loop) v) (log c) -> v = NaN) ->
  duration (state c') = None /\
  (forall loop v, In (SetProgress (Some loop) v) (log c') -> v = NaN).
Proof.
  induction es as [|e es IH]; cbn [after forallb]; intros c c' H Hl Hd Hlog.
  - done_step H. auto.
  - destruct (step c e) as [c1|] eqn:E; [|discriminate].
    apply andb_prop in Hl. destruct Hl as [He Hl].
    apply negb_true_iff in He.
    apply (IH c1 c' H Hl).
    + now rewrite (step_duration c e c1 E He).
    + destruct (step_published c e c1 E) as [delta [Hdelta Hpub]].
      intros loop v Hin. rewrite Hdelta in Hin.
      apply in_app_iff in Hin. destruct Hin as [Hin | Hin]; [eauto|].
      destruct Hpub as [Hpub _].
      destruct (Hpub loop v Hin) as [now [seek [rest [_ [_ ->]]]]].
      unfold ratio. rewrite Hd. apply div_undefined.
Qed.

(** C10: as long as the load callback has not run, whatever else has
    happened, the recorded duration is unset and every value the progress
    loop has published is [NaN]; on the mounted component its next frame
    publishes [NaN] again, whatever the engine reports. *)
Theorem c10_progress_nan_before_load p es c :
  after (constructor p) es = Some c ->
  forallb (fun e => negb (isLoad e)) es = true ->
  duration (state c) = None /\
  (forall loop v, In (SetProgress (Some loop) v) (log c) -> v = NaN) /\
  (forall loop rest now seek h,
     phase c = Mounted ->
     rafQueue c = TProgress loop :: rest -> howler c = Some h ->
     exists c',
       step c (EvFrame now seek) = Some c' /\
       progress (state c') = NaN /\
       log c' = log c ++ [SetProgress (Some loop) NaN]).
Proof.
  intros Hrun Hload.
  destruct (unloaded_after es (constructor p) c Hrun Hload) as [Hd Hlog];
    [reflexivity | intros loop v [] | ].
  split; [assumption|]. split; [assumption|].
  intros loop rest now seek h Hp Hq Hh.
  rewrite step_frame, Hq, Hh, Hp. cbn [ifMounted].
  eexists; split; [reflexivity|].
  unfold progressPublished, ratio; cbn. rewrite Hd, div_undefined. auto.
Qed.

(** *** Props updates *)

Lemma rebound_counts c nextProps :
  count isPlay (rebound c nextProps) = 0 /\
  count isStop (rebound c nextProps) = 0 /\
  count isFade (rebound c nextProps) = 0.
Proof.
  unfold rebound, rebindCalls.
  destruct (String.eqb (url (props c)) (url nextProps)), (howler c);
    repeat split.
Qed.

(** C3: when the active flag goes from false to true, the update calls
    [play()] once and [fade(0, 1, fadeInLength)] once on the session, starts
    an icon run toward the "stop" shape, sets the progress to 0 and puts the
    first frame of a new progress loop in the frame queue. *)
Theorem c3_activate_starts_playback p es c nextProps now :
  run (constructor p) (EvMount :: es) = Some c ->
  active (props c) = false ->
  active nextProps = true ->
  exists h c',
    howler c = Some h /\
    step c (EvReceiveProps nextProps now) = Some c' /\
    log c' = log c
             ++ [HowlPlay h; HowlFade h zero one (fadeInLength (props c));
                 AnimateIcon (nextId c) "stop"; SetProgress None zero]
             ++ rebound c nextProps /\
    count isPlay (log c') = S (count isPlay (log c)) /\
    count isFade (log c') = S (count isFade (log c)) /\
    progress (state c') = zero /\
    rafQueue c' =
      rafQueue c
      ++ [TIcon (mkRun (nextId c) now (iconAnimationLength (props c))
                       (iconPoints (state c)) (getStopIconPoints (props c)));
          TProgress (S (nextId c))].
Proof.
  intros Hrun Ha Hn.
  destruct (mounted_bound _ _ _ Hrun) as [[h Hh] Hk].
  pose proof (mounted_phase _ _ _ Hrun) as Hp.
  exists h. rewrite step_receive. unfold triggered.
  rewrite Ha, Hn, Hh, Hp. cbn [negb andb ifMounted].
  eexists. split; [reflexivity|]. split; [reflexivity|].
  assert (Hlog :
    log (flushed nextProps
           (if String.eqb (url (props c)) (url nextProps)
            then playTriggered now h c
            else rebindDone (playTriggered now h c))) =
    log c ++ playCalls h c ++ rebound c nextProps).
  { unfold rebound, rebindCalls.
    destruct (String.eqb (url (props c)) (url nextProps)); unfold_states;
      rewrite ?Hh, ?app_nil_r, <- ?app_assoc; reflexivity. }
  destruct (rebound_counts c nextProps) as [Rp [_ Rf]].
  split; [exact Hlog|]. rewrite Hlog, !count_app, Rp, Rf.
  split; [cbn; lia|]. split; [cbn; lia|].
  destruct (String.eqb (url (props c)) (url nextProps)); unfold_states;
    rewrite Hn, Hk; cbn; rewrite <- app_assoc; auto.
Qed.

(** C4: when the active flag goes from true to false, the update calls
    [fade(1, 0, fadeOutLength)] once, does not call [stop()] itself but
    leaves one new timer of delay [fadeOutLength] whose firing calls
    [stop()], starts an icon run toward the "play" shape and sets the
    progress to 0. *)
Theorem c4_deactivate_fades_then_stops p es c nextProps now :
  run (constructor p) (EvMount :: es) = Some c ->
  active (props c) = true ->
  active nextProps = false ->
  exists h c',
    howler c = Some h /\
    step c (EvReceiveProps nextProps now) = Some c' /\
    log c' = log c
             ++ [HowlFade h one zero (fadeOutLength (props c));
                 SetTimeout TStop (fadeOutLength (props c));
                 AnimateIcon (nextId c) "play"; SetProgress None zero]
             ++ rebound c nextProps /\
    count isFade (log c') = S (count isFade (log c)) /\
    count isStop (log c') = count isStop (log c) /\
    count isStopTimer (log c') = S (count isStopTimer (log c)) /\
    timers c' = timers c ++ [(fadeOutLength (props c), TStop)] /\
    progress (state c') = zero /\
    rafQueue c' =
      rafQueue c
      ++ [TIcon (mkRun (nextId c) now (iconAnimationLength (props c))
                       (iconPoints (state c)) (getPlayIconPoints (props c)))] /\
    exists h' c'',
      howler c' = Some h' /\
      step c' (EvTimeout (List.length (timers c))) = Some c'' /\
      log c'' = log c' ++ [HowlStop h'] /\
      timers c'' = timers c.
Proof.
  intros Hrun Ha Hn.
  destruct (mounted_bound _ _ _ Hrun) as [[h Hh] Hk].
  pose proof (mounted_phase _ _ _ Hrun) as Hp.
  exists h. rewrite step_receive. unfold triggered.
  rewrite Ha, Hn, Hh, Hp. cbn [negb andb ifMounted].
  eexists. split; [reflexivity|]. split; [reflexivity|].
  set (c' := flushed nextProps
               (if String.eqb (url (props c)) (url nextProps)
                then stopTriggered now h c
                else rebindDone (stopTriggered now h c))).
  assert (Hlog : log c' = log c ++ stopCalls h c ++ rebound c nextProps).
  { unfold c', rebound, rebindCalls.
    destruct (String.eqb (url (props c)) (url nextProps)); unfold_states;
      rewrite ?Hh, ?app_nil_r, <- ?app_assoc; reflexivity. }
  assert (Htimers : timers c' = timers c ++ [(fadeOutLength (props c), TStop)]).
  { unfold c'.
    destruct (String.eqb (url (props c)) (url nextProps)); reflexivity. }
  assert (Hhowler : exists h', howler c' = Some h').
  { unfold c'.
    destruct (String.eqb (url (props c)) (url nextProps)); unfold_states;
      eauto. }
  destruct (rebound_counts c nextProps) as [_ [Rs Rf]].
  assert (Rt : count isStopTimer (rebound c nextProps) = 0).
  { unfold rebound, rebindCalls.
    destruct (String.eqb (url (props c)) (url nextProps)), (howler c);
      reflexivity. }
  split; [exact Hlog|]. rewrite Hlog, !count_app, Rs, Rf, Rt.
  split; [cbn; lia|]. split; [cbn; lia|]. split; [cbn; lia|].
  split; [exact Htimers|].
  split.
  { unfold c'.
    destruct (String.eqb (url (props c)) (url nextProps)); reflexivity. }
  split.
  { unfold c'.
    destruct (String.eqb (url (props c)) (url nextProps)); unfold_states;
      rewrite Hn; reflexivity. }
  destruct Hhowler as [h' Hh']. exists h'.
  rewrite step_timeout, Htimers, Hh'.
  rewrite nth_error_app2, Nat.sub_diag by lia. cbn [nth_error].
  eexists. split; [reflexivity|]. split; [reflexivity|].
  split; [cbn [log]; now rewrite Hlog|]. cbn [timers].
  clear. induction (timers c) as [|t ts IH]; cbn; [reflexivity|].
  now rewrite IH.
Qed.

(** C9: a props update that keeps the active flag calls neither [play()]
    nor [stop()] nor [fade()] and schedules no timer; the engine is only
    touched when the URL changes, to rebind. *)
Theorem c9_same_flag_no_transport_call c nextProps now :
  active nextProps = active (props c) ->
  exists c' delta,
    step c (EvReceiveProps nextProps now) = Some c' /\
    log c' = log c ++ delta /\
    delta = rebound c nextProps /\
    count isPlay delta = 0 /\
    count isStop delta = 0 /\
    count isFade delta = 0 /\
    timers c' = timers c.
Proof.
  intros Ha. rewrite step_receive. unfold triggered. rewrite Ha.
  replace (negb (active (props c)) && active (props c)) with false
    by (destruct (active (props c)); reflexivity).
  replace (active (props c) && negb (active (props c))) with false
    by (destruct (active (props c)); reflexivity).
  eexists. exists (rebound c nextProps).
  split; [reflexivity|].
  destruct (rebound_counts c nextProps) as [Rp [Rs Rf]].
  repeat split; try assumption.
  - unfold rebound.
    destruct (String.eqb (url (props c)) (url nextProps)); unfold_states;
      rewrite ?app_nil_r; reflexivity.
  - destruct (String.eqb (url (props c)) (url nextProps)); reflexivity.
Qed.

(** *** Sessions *)

Ltac count_delta :=
  unfold_states; unfold playCalls, stopCalls, rebindCalls;
  rewrite ?count_app; unfold count in *; cbn; lia.

Lemma bound_rebindDone c : bound c -> bound (rebindDone c).
Proof.
  intros [h [Hh [Hl Hc]]]. exists (nextHowl c). repeat split.
  - unfold rebindDone, unloadedLive. cbn [liveHowls]. rewrite Hh, Hl. cbn.
    destruct (Nat.eq_dec h h); congruence.
  - unfold rebindDone, rebindCalls. cbn [log]. rewrite Hh. count_delta.
Qed.

Lemma bound_step c e c' :
  step c e = Some c' -> isUnmount e = false -> bound c -> bound c'.
Proof.
  intros H Hu B. pose proof B as [h [Hh [Hl Hc]]].
  destruct e; try discriminate.
  - rewrite step_mount in H. destruct (phase c); try discriminate.
    done_step H. apply bound_rebindDone. exact B.
  - rewrite step_receive in H. unfold triggered in H. rewrite Hh in H.
    assert (Bp : bound (playTriggered now h c)).
    { exists h. repeat split; auto. count_delta. }
    assert (Bp' : bound (playIgnored now h c)).
    { exists h. repeat split; auto. count_delta. }
    assert (Bs : bound (stopTriggered now h c)).
    { exists h. repeat split; auto. count_delta. }
    assert (Bs' : bound (stopIgnored now h c)).
    { exists h. repeat split; auto. count_delta. }
    assert (Bf : forall c1, bound c1 -> bound (flushed nextProps c1)).
    { intros c1 [h1 B1]. now exists h1. }
    destruct (negb (active (props c)) && active nextProps),
             (active (props c) && negb (active nextProps)),
             (String.eqb (url (props c)) (url nextProps)), (phase c);
      cbn [ifMounted] in H; done_step H; apply Bf;
      auto using bound_rebindDone.
  - rewrite step_frame in H. rewrite Hh in H.
    destruct (rafQueue c) as [|[loop|r] rest].
    + now done_step H.
    + done_step H.
      destruct (phase c); exists h; repeat split; auto; count_delta.
    + destruct (gtb (ofZ (now - startTime r)) (runDuration r)).
      * done_step H. now exists h.
      * destruct (morph (ofZ (now - startTime r)) (runDuration r)
                        (initialPoints r) (finalPoints r));
          [|discriminate].
        done_step H.
        destruct (phase c); exists h; repeat split; auto; count_delta.
  - rewrite step_timeout in H. rewrite Hh in H.
    destruct (nth_error (timers c) k) as [[d []]|]; done_step H; auto.
    exists h. repeat split; auto. count_delta.
  - rewrite step_load in H. rewrite Hh in H. done_step H.
    destruct (phase c); exists h; repeat split; auto; count_delta.
  - rewrite step_click in H. done_step H.
    exists h. repeat split; auto.
    destruct (active (props c)); count_delta.
Qed.

Lemma bound_run es : forall c c',
  run c es = Some c' ->
  forallb (fun e => negb (isUnmount e)) es = true ->
  bound c -> bound c'.
Proof.
  induction es as [|e es IH]; cbn [forallb]; intros c c' H Hu B.
  - cbn in H. now done_step H.
  - apply run_step in H. destruct H as [c1 [He [E H]]].
    apply andb_prop in Hu. destruct Hu as [_ Hu].
    apply (IH c1 c' H Hu). eapply bound_step; eauto.
Qed.

(** C5: at every point of the component's life, the unmount and what still
    fires after it included, the engine holds at most one session;
    [setupHowler] never throws, unloads the session it replaces before
    creating the new one and unloads nothing when none was bound; and as
    long as the component is mounted, whatever the number of binds so far,
    exactly one session is live and unmounting unloads exactly it. *)
Theorem c5_at_most_one_live_session p es c :
  after (constructor p) es = Some c ->
  List.length (liveHowls c) <= 1 /\
  (exists c1,
     exec setupHowler c = Some c1 /\
     log c1 = log c
              ++ match howler c with
                 | Some h => [HowlUnload h]
                 | None => []
                 end
              ++ [HowlNew (nextHowl c) (url (props c))
                          (audioFormat (props c))] /\
     howler c1 = Some (nextHowl c) /\
     liveHowls c1 = [nextHowl c]) /\
  (alive es = true ->
   exists h c2,
     howler c = Some h /\
     liveHowls c = [h] /\
     count isNew (log c) = S (count isUnload (log c)) /\
     step c EvUnmount = Some c2 /\
     log c2 = log c ++ [HowlUnload h] /\
     liveHowls c2 = []).
Proof.
  intros Hafter.
  pose proof (wf_after _ _ _ (wf_constructor p) Hafter) as [_ _ Hl].
  split; [|split].
  - destruct Hl as [-> | [h [_ ->]]]; cbn; lia.
  - unfold exec. rewrite setupHowler_eq. eexists. split; [reflexivity|].
    unfold rebindDone, rebindCalls, unloadedLive. cbn.
    repeat split.
    destruct Hl as [-> | [h [-> ->]]].
    + now destruct (howler c).
    + cbn. destruct (Nat.eq_dec h h); congruence.
  - intros Ha. destruct es as [|[] es]; try discriminate. cbn [alive] in Ha.
    assert (Hrun : run (constructor p) (EvMount :: es) = Some c).
    { rewrite run_without_unmount; [exact Hafter | exact Ha]. }
    pose proof (mounted_phase _ _ _ Hrun) as Hp.
    rewrite run_cons, step_mount in Hrun.
    cbn [isUnmount constructor phase] in Hrun.
    assert (B : bound c).
    { eapply bound_run; [exact Hrun | exact Ha |].
      exists 0. repeat split. }
    destruct B as [h [Hh [Hlive Hc]]]. exists h.
    rewrite step_unmount, Hp, Hh. eexists. repeat split; auto.
    cbn. rewrite Hlive. cbn. destruct (Nat.eq_dec h h); congruence.
Qed.

(** *** Loops and runs that have left the frame queue *)

Lemma gone_step c e c' id :
  step c e = Some c' ->
  wf c ->
  id < nextId c ->
  ~ In id (map taskId (rafQueue c)) ->
  id < nextId c' /\
  ~ In id (map taskId (rafQueue c')) /\
  exists delta,
    log c' = log c ++ delta /\
    count (publishedBy id) delta = 0 /\
    count (drawnBy id) delta = 0.
Proof.
  intros H W Hid Hout.
  destruct (step_queue c e c' H (wf_callbacks W)) as [Hn Hq].
  destruct (step_published c e c' H) as [delta [Hlog [Hpub Hdraw]]].
  split; [lia|]. split.
  - intros Hin. apply in_map_iff in Hin. destruct Hin as [t [Ht Hin]].
    destruct (Hq t Hin) as [Hold | Hnew]; [|lia].
    apply Hout. apply in_map_iff. now exists t.
  - exists delta. split; [assumption|]. split; apply count_zero.
    + intros [] Hin; try reflexivity. destruct loop as [l|]; [|reflexivity].
      cbn. destruct (Nat.eqb_spec l id) as [-> | Hne]; [|reflexivity].
      destruct (Hpub _ _ Hin) as [now [seek [rest [_ [Hq' _]]]]].
      exfalso. apply Hout. rewrite Hq'. now left.
    + intros [] Hin; try reflexivity.
      cbn. destruct (Nat.eqb_spec run0 id) as [-> | Hne]; [|reflexivity].
      destruct (Hdraw _ _ Hin) as [now [seek [r [rest [_ [Hq' Hr]]]]]].
      exfalso. apply Hout. rewrite Hq'. left. exact Hr.
Qed.

Lemma gone_after id es : forall c c',
  after c es = Some c' ->
  wf c ->
  id < nextId c ->
  ~ In id (map taskId (rafQueue c)) ->
  exists delta,
    log c' = log c ++ delta /\
    count (publishedBy id) delta = 0 /\
    count (drawnBy id) delta = 0 /\
    ~ In id (map taskId (rafQueue c')).
Proof.
  induction es as [|e es IH]; cbn [after]; intros c c' H W Hid Hout.
  - done_step H. exists []. rewrite app_nil_r. auto.
  - destruct (step c e) as [c1|] eqn:E; [|discriminate].
    destruct (gone_step c e c1 id E W Hid Hout)
      as [Hid1 [Hout1 [d1 [Hlog1 [Hp1 Hd1]]]]].
    destruct (IH c1 c' H (wf_step c e c1 W E) Hid1 Hout1)
      as [d2 [Hlog2 [Hp2 [Hd2 Hout2]]]].
    exists (d1 ++ d2). rewrite Hlog2, Hlog1, <- app_assoc, !count_app.
    repeat split; auto; lia.
Qed.


(** C7, as the code has it: a run is never cancelled by a later one.  On
    the mounted component each of its frames publishes, and puts the run
    back in the frame queue, as long as its own elapsed time does not
    exceed its own duration, whatever other runs are pending.  The run ends
    at the first of its frames that finds the time exceeded, or that comes
    after the unmount, React then ignoring the [setState] together with its
    callback: that frame publishes nothing, and from then on the run never
    publishes again. *)
Theorem c7_run_ends_by_timeout_or_unmount p es c r rest now seek :
  after (constructor p) es = Some c ->
  rafQueue c = TIcon r :: rest ->
  (forall pts,
     phase c = Mounted ->
     gtb (ofZ (now - startTime r)) (runDuration r) = false ->
     morph (ofZ (now - startTime r)) (runDuration r)
           (initialPoints r) (finalPoints r) = Some pts ->
     exists c1,
       step c (EvFrame now seek) = Some c1 /\
       log c1 = log c ++ [SetIconPoints (runId r) pts] /\
       rafQueue c1 = rest ++ [TIcon r]) /\
  (gtb (ofZ (now - startTime r)) (runDuration r) = true ->
   exists c1,
     step c (EvFrame now seek) = Some c1 /\
     log c1 = log c /\
     forall es2 c2,
       after c1 es2 = Some c2 ->
       exists delta,
         log c2 = log c1 ++ delta /\
         count (drawnBy (runId r)) delta = 0) /\
  (forall pts,
     phase c = Unmounted ->
     morph (ofZ (now - startTime r)) (runDuration r)
           (initialPoints r) (finalPoints r) = Some pts ->
     exists c1,
       step c (EvFrame now seek) = Some c1 /\
       log c1 = log c /\
       state c1 = state c /\
       forall es2 c2,
         after c1 es2 = Some c2 ->
         exists delta,
           log c2 = log c1 ++ delta /\
           count (drawnBy (runId r)) delta = 0).
Proof.
  intros Hafter Hq.
  pose proof (wf_after _ _ _ (wf_constructor p) Hafter) as W.
  pose proof (wf_ids W) as Hids. rewrite Hq in Hids.
  assert (Hgone : forall c1,
    step c (EvFrame now seek) = Some c1 ->
    nextId c1 = nextId c -> rafQueue c1 = rest ->
    forall es2 c2,
      after c1 es2 = Some c2 ->
      exists delta,
        log c2 = log c1 ++ delta /\ count (drawnBy (runId r)) delta = 0).
  { intros c1 E Hn1 Hq1 es2 c2 Hafter2.
    assert (Hid : runId r < nextId c1).
    { rewrite Hn1. destruct Hids as [Hf _]. apply (Hf (TIcon r)). now left. }
    assert (Hout : ~ In (runId r) (map taskId (rafQueue c1))).
    { rewrite Hq1. exact (idsOk_head _ _ _ Hids). }
    destruct (gone_after (runId r) es2 c1 c2 Hafter2 (wf_step _ _ _ W E)
                         Hid Hout)
      as [delta [Hlog [_ [Hd _]]]].
    exists delta. auto. }
  split; [|split].
  - intros pts Hp Hg Hm. rewrite step_frame, Hq, Hg, Hm, Hp.
    eexists. split; [reflexivity|]. split; reflexivity.
  - intros Hg.
    assert (E : step c (EvFrame now seek) = Some (setRafQueue rest c)).
    { now rewrite step_frame, Hq, Hg. }
    eexists. split; [exact E|]. split; [reflexivity|].
    apply Hgone; [exact E | reflexivity | reflexivity].
  - intros pts Hp Hm.
    assert (E : step c (EvFrame now seek) = Some (setRafQueue rest c)).
    { rewrite step_frame, Hq, Hm, Hp.
      now destruct (gtb (ofZ (now - startTime r)) (runDuration r)). }
    eexists. split; [exact E|]. split; [reflexivity|].
    split; [reflexivity|].
    apply Hgone; [exact E | reflexivity | reflexivity].
Qed.

(** C8, as the code has it: a props update with a new URL unloads the
    bound session and creates a new one, which becomes the only live one;
    it leaves the loading flag and the recorded duration as they are, so
    that a progress frame run before the next load callback still divides
    by the duration recorded for the previous clip. *)
Theorem c8_url_change_rebinds_and_keeps_state p es c nextProps now :
  run (constructor p) (EvMount :: es) = Some c ->
  String.eqb (url (props c)) (url nextProps) = false ->
  exists h c' pre src fmt,
    howler c = Some h /\
    step c (EvReceiveProps nextProps now) = Some c' /\
    log c' = log c ++ pre ++ [HowlUnload h; HowlNew (nextHowl c) src fmt] /\
    howler c' = Some (nextHowl c) /\
    liveHowls c' = [nextHowl c] /\
    loading (state c') = loading (state c) /\
    duration (state c') = duration (state c) /\
    forall loop rest now' seek,
      rafQueue c' = TProgress loop :: rest ->
      exists c'',
        step c' (EvFrame now' seek) = Some c'' /\
        progress (state c'') =
          div (mul seek (ofZ 1000)) (toNumber (duration (state c))).
Proof.
  intros Hrun Hurl.
  destruct (mounted_bound _ _ _ Hrun) as [[h Hh] _].
  pose proof (wf_reachable _ _ _ Hrun) as W.
  pose proof (wf_live W) as Hl. rewrite Hh in Hl.
  pose proof (liveOk_unload _ _ Hl) as Hgone.
  pose proof (mounted_phase _ _ _ Hrun) as Hp.
  exists h. rewrite step_receive. unfold triggered. rewrite Hurl, Hh, Hp.
  cbn [ifMounted].
  assert (Hframe : forall c' : Comp,
    phase c' = Mounted ->
    howler c' = Some (nextHowl c) ->
    duration (state c') = duration (state c) ->
    forall loop rest now' seek,
      rafQueue c' = TProgress loop :: rest ->
      exists c'',
        step c' (EvFrame now' seek) = Some c'' /\
        progress (state c'') =
          div (mul seek (ofZ 1000)) (toNumber (duration (state c)))).
  { intros c' Hp' Hh' Hd' loop rest now' seek Hq.
    rewrite step_frame, Hq, Hh', Hp'. cbn [ifMounted].
    eexists. split; [reflexivity|].
    unfold progressPublished, ratio. cbn. now rewrite Hd'. }
  assert (Hcase : forall (X : Comp) (pre : list Effect),
    phase X = Mounted ->
    howler X = Some h ->
    liveHowls X = liveHowls c ->
    nextHowl X = nextHowl c ->
    loading (state X) = loading (state c) ->
    duration (state X) = duration (state c) ->
    log X = log c ++ pre ->
    exists c' pre' src fmt,
      Some h = Some h /\
      Some (flushed nextProps (rebindDone X)) = Some c' /\
      log c' = log c ++ pre' ++ [HowlUnload h; HowlNew (nextHowl c) src fmt] /\
      howler c' = Some (nextHowl c) /\
      liveHowls c' = [nextHowl c] /\
      loading (state c') = loading (state c) /\
      duration (state c') = duration (state c) /\
      forall loop rest now' seek,
        rafQueue c' = TProgress loop :: rest ->
        exists c'',
          step c' (EvFrame now' seek) = Some c'' /\
          progress (state c'') =
            div (mul seek (ofZ 1000)) (toNumber (duration (state c)))).
  { intros X pre HP HX HL HN Hload Hdur Hlog.
    exists (flushed nextProps (rebindDone X)), pre. do 2 eexists.
    split; [reflexivity|]. split; [reflexivity|].
    assert (Hp' : phase (flushed nextProps (rebindDone X)) = Mounted).
    { exact HP. }
    assert (Hh' : howler (flushed nextProps (rebindDone X))
                  = Some (nextHowl c)).
    { cbn. now rewrite HN. }
    assert (Hd' : duration (state (flushed nextProps (rebindDone X)))
                  = duration (state c)).
    { exact Hdur. }
    split; [|split; [exact Hh'|split; [|split; [exact Hload|split;
      [exact Hd'|apply Hframe; assumption]]]]].
    - cbn [flushed rebindDone log]. unfold rebindCalls.
      rewrite HX, Hlog, HN, <- app_assoc. reflexivity.
    - cbn [flushed rebindDone liveHowls]. unfold unloadedLive.
      now rewrite HX, HL, HN, Hgone. }
  destruct (negb (active (props c)) && active nextProps);
    [|destruct (active (props c) && negb (active nextProps))].
  - apply (Hcase (playTriggered now h c) (playCalls h c)); auto.
  - apply (Hcase (stopTriggered now h c) (stopCalls h c)); auto.
  - apply (Hcase c []); auto. now rewrite app_nil_r.
Qed.

(** The URL the new session is created with is the one of the props the
    component has when [componentWillReceiveProps] runs, not the one of the
    props it receives. *)
Lemma rebind_reads_current_props c nextProps now c' :
  String.eqb (url (props c)) (url nextProps) = false ->
  step c (EvReceiveProps nextProps now) = Some c' ->
  In (HowlNew (nextHowl c) (url (props c)) (audioFormat (props c))) (log c').
Proof.
  intros Hurl H. rewrite step_receive in H. unfold triggered in H.
  rewrite Hurl in H.
  destruct (negb (active (props c)) && active nextProps),
           (active (props c) && negb (active nextProps)),
           (howler c) as [h|] eqn:Hh, (phase c);
    done_step H; unfold_states; unfold rebindCalls; unfold_states;
    rewrite ?Hh; rewrite !in_app_iff; cbn; auto.
Qed.

(** *** The icon morph *)

Lemma ease_finite (t b f d : Q) :
  (0 < d)%Q ->
  easeOutCubic (Fin t) (Fin b) (sub (Fin f) (Fin b)) (Fin d) =
  Fin (easeQ t b f d).
Proof.
  intros Hd. unfold easeOutCubic. now rewrite div_pos.
Qed.

Lemma cube_bounds (u : Q) :
  (0 <= u <= 1)%Q ->
  (0 <= (u + - (1)) * ((u + - (1)) * (u + - (1))) + 1 <= 1)%Q.
Proof.
  intros [H0 H1]. split.
  - assert (0 <= u * (u * u - 3 * u + 3))%Q
      by (apply Qmult_le_0_compat; nra).
    nra.
  - assert (0 <= (1 - u) * ((1 - u) * (1 - u)))%Q
      by (repeat apply Qmult_le_0_compat; lra).
    nra.
Qed.

Lemma cube_mono (u v : Q) :
  (0 <= u <= v)%Q -> (v <= 1)%Q ->
  ((u + - (1)) * ((u + - (1)) * (u + - (1))) + 1
   <= (v + - (1)) * ((v + - (1)) * (v + - (1))) + 1)%Q.
Proof.
  intros [H0 H1] H2.
  assert (0 <= (v - u) * ((1 - u) * (1 - u) + (1 - u) * (1 - v)
                          + (1 - v) * (1 - v)))%Q.
  { apply Qmult_le_0_compat; [lra|]. nra. }
  nra.
Qed.

Lemma ease_between (t b f d : Q) :
  (0 < d)%Q -> (0 <= t <= d)%Q ->
  between (Fin b) (Fin f) (Fin (easeQ t b f d)).
Proof.
  intros Hd Ht. unfold between, easeQ.
  pose proof (cube_bounds (t / d) (ratio_bounds t d Hd Ht)) as [K0 K1].
  set (k := ((t / d + - (1)) * ((t / d + - (1)) * (t / d + - (1))) + 1)%Q)
    in *.
  destruct (Qlt_le_dec f b) as [Hlt | Hle].
  - right. split; nra.
  - left. split; nra.
Qed.

Lemma ease_end (t b f d : Q) :
  (0 < d)%Q -> (t == d)%Q -> (easeQ t b f d == f)%Q.
Proof.
  intros Hd Ht. unfold easeQ. rewrite Ht. field. lra.
Qed.

Lemma ease_mono (t1 t2 b f d : Q) :
  (0 < d)%Q -> (0 <= t1 <= t2)%Q -> (t2 <= d)%Q ->
  between (Fin (easeQ t1 b f d)) (Fin f) (Fin (easeQ t2 b f d)).
Proof.
  intros Hd [H0 H12] H2. unfold between, easeQ.
  assert (B1 : (0 <= t1 / d <= 1)%Q) by (apply ratio_bounds; lra).
  assert (B2 : (0 <= t2 / d <= 1)%Q) by (apply ratio_bounds; lra).
  assert (B12 : (t1 / d <= t2 / d)%Q).
  { unfold Qdiv. apply Qmult_le_compat_r; [assumption|].
    apply Qlt_le_weak, Qinv_lt_0_compat, Hd. }
  pose proof (cube_mono (t1 / d) (t2 / d) (conj (proj1 B1) B12) (proj2 B2))
    as M.
  pose proof (cube_bounds (t2 / d) B2) as [_ K2].
  set (k1 := ((t1 / d + - (1)) * ((t1 / d + - (1)) * (t1 / d + - (1)))
              + 1)%Q) in *.
  set (k2 := ((t2 / d + - (1)) * ((t2 / d + - (1)) * (t2 / d + - (1)))
              + 1)%Q) in *.
  destruct (Qlt_le_dec f b) as [Hlt | Hle].
  - right. split; nra.
  - left. split; nra.
Qed.

Lemma morphFrom_shift (t d : num) (initial : Points) :
  forall index p final,
    morphFrom (S index) t d initial (p :: final) =
    morphFrom index t d initial final.
Proof.
  induction initial as [|[x y] rest IH]; intros index p final; cbn;
    [reflexivity|].
  destruct (nth_error final index) as [[fx fy]|]; [|reflexivity].
  now rewrite IH.
Qed.

Lemma morph_cons (t d x y fx fy : num) (initial final : Points) :
  morph t d ((x, y) :: initial) ((fx, fy) :: final) =
  match morph t d initial final with
  | Some pts =>
      Some ((easeOutCubic t x (sub fx x) d, easeOutCubic t y (sub fy y) d)
            :: pts)
  | None => None
  end.
Proof.
  unfold morph. cbn. now rewrite morphFrom_shift.
Qed.

Lemma finite_inv (x : num) : isFinite x = true -> exists q, x = Fin q.
Proof.
  destruct x; try discriminate. intros _. now exists q.
Qed.

(** With a positive duration and finite shapes of the same length, a frame
    at a time within the duration computes points between the initial and
    the final ones, and the final ones at the end of the duration. *)
Lemma morph_between (t d : Q) :
  (0 < d)%Q -> (0 <= t <= d)%Q ->
  forall initial final,
    finitePoints initial -> finitePoints final ->
    List.length initial = List.length final ->
    exists pts,
      morph (Fin t) (Fin d) initial final = Some pts /\
      pointsBetween initial final pts /\
      ((t == d)%Q -> samePoints pts final).
Proof.
  intros Hd Ht. induction initial as [|[x y] initial IH];
    intros [|[fx fy] final] Hi Hf Hlen; try discriminate.
  - exists []. repeat split.
  - inversion Hi as [|? ? [Hx Hy] Hi']; subst.
    inversion Hf as [|? ? [Hfx Hfy] Hf']; subst.
    cbn in Hx, Hy, Hfx, Hfy.
    destruct (finite_inv _ Hx) as [qx ->], (finite_inv _ Hy) as [qy ->],
             (finite_inv _ Hfx) as [qfx ->], (finite_inv _ Hfy) as [qfy ->].
    destruct (IH final Hi' Hf') as [pts [Hm [Hb He]]];
      [now inversion Hlen|].
    rewrite morph_cons, Hm, !ease_finite by assumption.
    eexists. split; [reflexivity|]. split.
    + cbn [pointsBetween]. auto using ease_between.
    + intros E. cbn [samePoints same]. auto using ease_end.
Qed.

(** The later the frame, the closer to the final points. *)
Lemma morph_approaches (t1 t2 d : Q) :
  (0 < d)%Q -> (0 <= t1 <= t2)%Q -> (t2 <= d)%Q ->
  forall initial final pts1 pts2,
    finitePoints initial -> finitePoints final ->
    morph (Fin t1) (Fin d) initial final = Some pts1 ->
    morph (Fin t2) (Fin d) initial final = Some pts2 ->
    pointsBetween pts1 final pts2.
Proof.
  intros Hd Ht1 Ht2. induction initial as [|[x y] initial IH];
    intros final pts1 pts2 Hi Hf H1 H2.
  - cbn in H1, H2. done_step H1. done_step H2. exact I.
  - destruct final as [|[fx fy] final]; [discriminate|].
    inversion Hi as [|? ? [Hx Hy] Hi']; subst.
    inversion Hf as [|? ? [Hfx Hfy] Hf']; subst.
    cbn in Hx, Hy, Hfx, Hfy.
    destruct (finite_inv _ Hx) as [qx ->], (finite_inv _ Hy) as [qy ->],
             (finite_inv _ Hfx) as [qfx ->], (finite_inv _ Hfy) as [qfy ->].
    rewrite morph_cons in H1, H2.
    destruct (morph (Fin t1) (Fin d) initial final) as [q1|] eqn:E1;
      [|discriminate].
    destruct (morph (Fin t2) (Fin d) initial final) as [q2|] eqn:E2;
      [|discriminate].
    rewrite !ease_finite in H1, H2 by assumption.
    done_step H1. done_step H2. cbn [pointsBetween].
    split; [now apply ease_mono|]. split; [now apply ease_mono|].
    now apply (IH final).
Qed.

(** C2, as the code has it with the easing of the specification: on a
    mounted component, for a run of positive duration D between finite
    shapes, a frame at a time within D publishes points that lie between
    the initial and the target ones, the target ones themselves at time D,
    and any later frame within D comes closer to the target. *)
Theorem c2_morph_converges_without_overshoot c r rest now seek D :
  phase c = Mounted ->
  rafQueue c = TIcon r :: rest ->
  runDuration r = Fin D ->
  (0 < D)%Q ->
  finitePoints (initialPoints r) ->
  finitePoints (finalPoints r) ->
  List.length (initialPoints r) = List.length (finalPoints r) ->
  (0 <= inject_Z (now - startTime r) <= D)%Q ->
  exists c' pts,
    step c (EvFrame now seek) = Some c' /\
    iconPoints (state c') = pts /\
    log c' = log c ++ [SetIconPoints (runId r) pts] /\
    pointsBetween (initialPoints r) (finalPoints r) pts /\
    ((inject_Z (now - startTime r) == D)%Q ->
     samePoints pts (finalPoints r)) /\
    forall later pts',
      (now <= later)%Z ->
      (inject_Z (later - startTime r) <= D)%Q ->
      morph (ofZ (later - startTime r)) (runDuration r)
            (initialPoints r) (finalPoints r) = Some pts' ->
      pointsBetween pts (finalPoints r) pts'.
Proof.
  intros Hp Hq HD Hpos Hi Hf Hlen Ht.
  destruct (morph_between _ _ Hpos Ht _ _ Hi Hf Hlen)
    as [pts [Hm [Hb He]]].
  rewrite step_frame, Hq, HD, Hp. cbn [ifMounted]. unfold ofZ.
  assert (Hg : gtb (Fin (inject_Z (now - startTime r))) (Fin D) = false).
  { cbn. apply negb_false_iff, Qle_bool_iff, Ht. }
  rewrite Hg, Hm. exists (iconPublished r pts rest c), pts.
  repeat split; auto.
  intros later pts' Hlater HlaterD Hm'.
  apply (morph_approaches (inject_Z (now - startTime r))
                          (inject_Z (later - startTime r)) D Hpos)
    with (initial := initialPoints r); auto.
  split; [apply Ht|]. rewrite <- Zle_Qle. lia.
Qed.

(** *** The loading flag *)

Lemma step_loading c e c' :
  step c e = Some c' ->
  loading (state c) = false ->
  loading (state c') = false.
Proof.
  intros H Hl. destruct e.
  - rewrite step_mount in H. destruct (phase c); try discriminate.
    now done_step H.
  - rewrite step_receive in H. unfold triggered in H.
    destruct (negb (active (props c)) && active nextProps),
             (active (props c) && negb (active nextProps)),
             (String.eqb (url (props c)) (url nextProps)),
             (howler c) as [h|], (phase c);
      done_step H; exact Hl.
  - rewrite step_frame in H.
    destruct (rafQueue c) as [|[loop|r] rest].
    + now done_step H.
    + destruct (howler c); [|discriminate]. done_step H.
      now destruct (phase c).
    + destruct (gtb (ofZ (now - startTime r)) (runDuration r)).
      * now done_step H.
      * destruct (morph (ofZ (now - startTime r)) (runDuration r)
                        (initialPoints r) (finalPoints r));
          [|discriminate].
        done_step H. now destruct (phase c).
  - rewrite step_timeout in H.
    destruct (nth_error (timers c) k) as [[d []]|].
    + destruct (howler c); [|discriminate]. now done_step H.
    + now done_step H.
  - rewrite step_load in H. destruct (howler c); [|discriminate].
    done_step H. now destruct (phase c).
  - rewrite step_click in H. now done_step H.
  - rewrite step_unmount in H. destruct (phase c); try discriminate.
    destruct (howler c); [|discriminate].
    now done_step H.
Qed.

(** X1: once a load callback has cleared the loading flag, no later event
    of that instance sets it again: not a new URL, not the unmount, not
    what fires after it. *)
Theorem loading_never_returns es : forall c c',
  after c es = Some c' ->
  loading (state c) = false ->
  loading (state c') = false.
Proof.
  induction es as [|e es IH]; cbn [after]; intros c c' H Hl.
  - now done_step H.
  - destruct (step c e) as [c1|] eqn:E; [|discriminate].
    apply (IH c1 c' H). exact (step_loading c e c1 E Hl).
Qed.

(** X2: a component just constructed and mounted has one live session,
    created for the URL and format of its props; it is loading, its
    progress is 0, its icon is the "play" shape and nothing is pending. *)
Theorem mount_binds_first_session p :
  exists c,
    run (constructor p) [EvMount] = Some c /\
    log c = [HowlNew 0 (url p) (audioFormat p)] /\
    howler c = Some 0 /\
    liveHowls c = [0] /\
    state c = mkState zero true None (getPlayIconPoints p) /\
    rafQueue c = [] /\
    timers c = [] /\
    props c = p.
Proof.
  rewrite run_cons, step_mount. cbn [isUnmount constructor phase run].
  eexists. split; [reflexivity|].
  repeat split.
Qed.

(** *** Engine calls and flag transitions *)

Lemma removeAt_length (A : Type) (l : list A) : forall k x,
  nth_error l k = Some x -> S (List.length (removeAt k l)) = List.length l.
Proof.
  induction l as [|a l IH]; intros [|k] x H; try discriminate; cbn.
  - reflexivity.
  - cbn in H. now rewrite (IH k x H).
Qed.

Ltac count_goal :=
  unfold_states; unfold playCalls, stopCalls, rebindCalls;
  repeat match goal with
         | E : active _ = _ |- _ => rewrite E
         | E : howler _ = _ |- _ => rewrite E
         end;
  first [ reflexivity
        | rewrite ?count_app, ?length_app; unfold count in *; cbn; lia ].

Lemma step_counts c e c' :
  step c e = Some c' ->
  active (props c') = flagAfter (active (props c)) e /\
  count isPlay (log c') =
    count isPlay (log c) + activations (active (props c)) [e] /\
  count isFade (log c') =
    count isFade (log c) + activations (active (props c)) [e]
    + deactivations (active (props c)) [e] /\
  count isStop (log c') + List.length (timers c') =
    count isStop (log c) + List.length (timers c)
    + deactivations (active (props c)) [e].
Proof.
  intros H. destruct e; cbn [flagAfter activations deactivations].
  - rewrite step_mount in H. destruct (phase c); try discriminate.
    done_step H.
    destruct (active (props c)) eqn:Ha, (howler c) eqn:Hh;
      repeat split; count_goal.
  - rewrite step_receive in H. unfold triggered in H.
    destruct (active (props c)) eqn:Ha, (active nextProps) eqn:Hn,
             (String.eqb (url (props c)) (url nextProps)),
             (howler c) as [h|] eqn:Hh, (phase c);
      cbn [negb andb ifMounted] in H; done_step H; cbn [negb andb];
      (split; [exact Hn|]); repeat split; count_goal.
  - rewrite step_frame in H.
    destruct (rafQueue c) as [|[loop|r] rest].
    + done_step H. destruct (active (props c')); repeat split; cbn; lia.
    + destruct (howler c) eqn:Hh; [|discriminate]. done_step H.
      destruct (active (props c)) eqn:Ha, (phase c); repeat split;
        count_goal.
    + destruct (gtb (ofZ (now - startTime r)) (runDuration r)).
      * done_step H. destruct (active (props c)) eqn:Ha; repeat split;
          count_goal.
      * destruct (morph (ofZ (now - startTime r)) (runDuration r)
                        (initialPoints r) (finalPoints r));
          [|discriminate].
        done_step H. destruct (active (props c)) eqn:Ha, (phase c);
          repeat split; count_goal.
  - rewrite step_timeout in H.
    destruct (nth_error (timers c) k) as [[d []]|] eqn:Hk.
    + destruct (howler c) eqn:Hh; [|discriminate]. done_step H.
      pose proof (removeAt_length _ (timers c) k _ Hk) as Hlen.
      destruct (active (props c)) eqn:Ha; repeat split; cbn [log timers];
        rewrite ?count_app; unfold count in *; cbn in *;
        first [assumption | lia].
    + done_step H. destruct (active (props c')); repeat split; cbn; lia.
  - rewrite step_load in H.
    destruct (howler c) eqn:Hh; [|discriminate]. done_step H.
    destruct (active (props c)) eqn:Ha, (phase c); repeat split; count_goal.
  - rewrite step_click in H. done_step H.
    destruct (active (props c)) eqn:Ha; repeat split; count_goal.
  - rewrite step_unmount in H. destruct (phase c); try discriminate.
    destruct (howler c) eqn:Hh; [|discriminate]. done_step H.
    destruct (active (props c)) eqn:Ha; repeat split; count_goal.
Qed.

(** X3: along any sequence of events, [play()] is called once for each
    props update that turns the active flag on and never otherwise,
    [fade()] once for each update that turns it on or off, and each update
    that turns it off accounts for exactly one [stop()], already called or
    still waiting on its timer. *)
Theorem engine_calls_follow_flag_transitions es : forall c c',
  after c es = Some c' ->
  count isPlay (log c') =
    count isPlay (log c) + activations (active (props c)) es /\
  count isFade (log c') =
    count isFade (log c) + activations (active (props c)) es
    + deactivations (active (props c)) es /\
  count isStop (log c') + List.length (timers c') =
    count isStop (log c) + List.length (timers c)
    + deactivations (active (props c)) es.
Proof.
  induction es as [|e es IH]; intros c c' H.
  - cbn in H. done_step H. cbn. repeat split; lia.
  - cbn [after] in H. destruct (step c e) as [c1|] eqn:E; [|discriminate].
    destruct (step_counts c e c1 E) as [Hf [Hp [Hd Hs]]].
    destruct (IH c1 c' H) as [Hp' [Hd' Hs']].
    rewrite Hf in Hp', Hd', Hs'.
    cbn [activations deactivations] in *.
    repeat split; lia.
Qed.

(** *** Pending callbacks *)

Lemma removeAt_keeps (A : Type) (x : A) (l : list A) : forall k,
  In x l -> In x (removeAt k l) \/ nth_error l k = Some x.
Proof.
  induction l as [|a l IH]; intros k [].
  - subst. destruct k; cbn; auto.
  - destruct k; cbn; [auto|]. destruct (IH k H); auto.
Qed.

(** X4: the component never cancels what it has scheduled.  Whatever the
    event (deactivation, new URL, unmount included), a pending frame
    callback stays in the queue unless the event is the frame that runs it,
    and a pending timer stays unless the event is its own firing. *)
Theorem pending_callbacks_are_never_cancelled c e c' :
  step c e = Some c' ->
  (forall t,
     In t (rafQueue c) ->
     In t (rafQueue c') \/
     exists now seek rest, e = EvFrame now seek /\ rafQueue c = t :: rest) /\
  (forall x,
     In x (timers c) ->
     In x (timers c') \/
     exists k, e = EvTimeout k /\ nth_error (timers c) k = Some x).
Proof.
  intros H. destruct e.
  - rewrite step_mount in H. destruct (phase c); try discriminate.
    done_step H. split; intros ? Hin; left; exact Hin.
  - rewrite step_receive in H. unfold triggered in H.
    destruct (negb (active (props c)) && active nextProps),
             (active (props c) && negb (active nextProps)),
             (String.eqb (url (props c)) (url nextProps)),
             (howler c) as [h|], (phase c);
      done_step H; split; intros ? Hin; left; unfold_states;
      try destruct (active nextProps); rewrite ?in_app_iff; auto.
  - rewrite step_frame in H.
    destruct (rafQueue c) as [|[loop|r] rest] eqn:Hq.
    + done_step H. rewrite Hq. split; intros ? Hin; left; exact Hin.
    + destruct (howler c); [|discriminate]. done_step H.
      split; intros ? Hin; [|left; destruct (phase c); exact Hin].
      destruct Hin as [<- | Hin]; [right; eauto|].
      left. destruct (phase c); unfold_states; destruct (active (props c));
        rewrite ?in_app_iff; auto.
    + destruct (gtb (ofZ (now - startTime r)) (runDuration r)).
      * done_step H. split; intros ? Hin; [|left; exact Hin].
        destruct Hin as [<- | Hin]; [right; eauto | left; exact Hin].
      * destruct (morph (ofZ (now - startTime r)) (runDuration r)
                        (initialPoints r) (finalPoints r));
          [|discriminate].
        done_step H.
        split; intros ? Hin; [|left; destruct (phase c); exact Hin].
        destruct Hin as [<- | Hin]; [right; eauto|].
        left. destruct (phase c); unfold_states; rewrite ?in_app_iff; auto.
  - rewrite step_timeout in H.
    destruct (nth_error (timers c) k) as [[d []]|] eqn:Hk.
    + destruct (howler c); [|discriminate]. done_step H.
      split; intros ? Hin; [left; exact Hin|]. cbn [timers].
      destruct (removeAt_keeps _ x (timers c) k Hin); eauto.
    + done_step H. split; intros ? Hin; left; exact Hin.
  - rewrite step_load in H. destruct (howler c); [|discriminate].
    done_step H. split; intros ? Hin; left; destruct (phase c); exact Hin.
  - rewrite step_click in H. done_step H.
    split; intros ? Hin; left; exact Hin.
  - rewrite step_unmount in H. destruct (phase c); try discriminate.
    destruct (howler c); [|discriminate].
    done_step H. split; intros ? Hin; left; exact Hin.
Qed.

Lemma nth_error_snoc (A : Type) (l : list A) (x : A) :
  nth_error (l ++ [x]) (List.length l) = Some x.
Proof.
  rewrite nth_error_app2, Nat.sub_diag by lia. reflexivity.
Qed.

(** X5: the timer a deactivation leaves for [stop()] is not cancelled by a
    reactivation.  When the flag goes off and on again before the timer
    fires, [play()] is called and then the old timer calls [stop()] on the
    very session that is playing, while the flag is still on. *)
Theorem stop_timer_survives_reactivation p es c down up t1 t2 :
  run (constructor p) (EvMount :: es) = Some c ->
  active (props c) = true ->
  active down = false ->
  active up = true ->
  String.eqb (url down) (url up) = true ->
  exists h c1 c2 c3,
    step c (EvReceiveProps down t1) = Some c1 /\
    step c1 (EvReceiveProps up t2) = Some c2 /\
    howler c2 = Some h /\
    log c2 = log c1 ++ playCalls h c1 /\
    step c2 (EvTimeout (List.length (timers c))) = Some c3 /\
    log c3 = log c2 ++ [HowlStop h] /\
    active (props c3) = true.
Proof.
  intros Hrun Ha Hd Hu Hurl.
  destruct (mounted_bound _ _ _ Hrun) as [[h0 Hh0] Hk].
  pose proof (mounted_phase _ _ _ Hrun) as Hp.
  assert (Hc1 : exists h c1,
    step c (EvReceiveProps down t1) = Some c1 /\
    howler c1 = Some h /\ props c1 = down /\
    timers c1 = timers c ++ [(fadeOutLength (props c), TStop)] /\
    phase c1 = Mounted).
  { rewrite step_receive. unfold triggered. rewrite Ha, Hd, Hh0, Hp.
    cbn [negb andb ifMounted].
    destruct (String.eqb (url (props c)) (url down));
      eexists; eexists; (split; [reflexivity|]); repeat split;
      first [exact Hh0 | exact Hp]. }
  destruct Hc1 as [h [c1 [S1 [Hh1 [Hp1 [Ht1 Hph1]]]]]].
  exists h, c1, (flushed up (playTriggered t2 h c1)).
  assert (S2 : step c1 (EvReceiveProps up t2)
               = Some (flushed up (playTriggered t2 h c1))).
  { rewrite step_receive. unfold triggered.
    rewrite Hp1, Hd, Hu, Hh1, Hurl, Hph1. reflexivity. }
  eexists. split; [exact S1|]. split; [exact S2|].
  split; [exact Hh1|]. split; [reflexivity|].
  rewrite step_timeout. cbn [flushed playTriggered timers howler].
  rewrite Ht1, nth_error_snoc, Hh1.
  split; [reflexivity|]. split; [reflexivity|]. exact Hu.
Qed.

(** *** Sessions and the stop timer *)

Lemma howlerKnown_step c e c' :
  step c e = Some c' -> howlerKnown c -> howlerKnown c'.
Proof.
  unfold howlerKnown. intros H K. destruct e.
  - rewrite step_mount in H. destruct (phase c); try discriminate.
    done_step H. cbn. intros h Hh.
    inversion Hh. lia.
  - rewrite step_receive in H. unfold triggered in H.
    destruct (negb (active (props c)) && active nextProps),
             (active (props c) && negb (active nextProps)),
             (String.eqb (url (props c)) (url nextProps)),
             (howler c) as [h0|] eqn:Hh0, (phase c);
      done_step H; unfold_states; rewrite ?Hh0; intros h Hh;
      try (inversion Hh; subst; lia); try (apply K; congruence);
      try discriminate.
  - rewrite step_frame in H.
    destruct (rafQueue c) as [|[loop|r] rest].
    + now done_step H.
    + destruct (howler c) eqn:Hh0; [|discriminate]. done_step H.
      destruct (phase c); unfold_states; rewrite ?Hh0; exact K.
    + destruct (gtb (ofZ (now - startTime r)) (runDuration r)).
      * done_step H. exact K.
      * destruct (morph (ofZ (now - startTime r)) (runDuration r)
                        (initialPoints r) (finalPoints r));
          [|discriminate].
        done_step H. destruct (phase c); exact K.
  - rewrite step_timeout in H.
    destruct (nth_error (timers c) k) as [[d []]|].
    + destruct (howler c) eqn:Hh0; [|discriminate]. done_step H.
      cbn. rewrite ?Hh0. exact K.
    + now done_step H.
  - rewrite step_load in H. destruct (howler c) eqn:Hh0; [|discriminate].
    done_step H. destruct (phase c); cbn; rewrite ?Hh0; exact K.
  - rewrite step_click in H. done_step H. exact K.
  - rewrite step_unmount in H. destruct (phase c); try discriminate.
    destruct (howler c) eqn:Hh0; [|discriminate].
    done_step H. cbn. rewrite ?Hh0. exact K.
Qed.

Lemma howlerKnown_run es : forall c c',
  run c es = Some c' -> howlerKnown c -> howlerKnown c'.
Proof.
  induction es as [|e es IH]; intros c c' H K.
  - cbn in H. now done_step H.
  - apply run_step in H. destruct H as [c1 [_ [E H]]].
    apply (IH c1 c' H). exact (howlerKnown_step c e c1 E K).
Qed.

(** X6: the timer's [stop()] goes to whatever session is bound when it
    fires.  When one props update both turns the flag off and brings a new
    URL, the fade-out is asked of the old session, which is then unloaded,
    and the timer calls [stop()] on the new, different session. *)
Theorem stop_reaches_the_rebound_session p es c nextProps now :
  run (constructor p) (EvMount :: es) = Some c ->
  active (props c) = true ->
  active nextProps = false ->
  String.eqb (url (props c)) (url nextProps) = false ->
  exists h c1 c2,
    howler c = Some h /\
    h <> nextHowl c /\
    step c (EvReceiveProps nextProps now) = Some c1 /\
    log c1 = log c
             ++ [HowlFade h one zero (fadeOutLength (props c));
                 SetTimeout TStop (fadeOutLength (props c));
                 AnimateIcon (nextId c) "play"; SetProgress None zero;
                 HowlUnload h;
                 HowlNew (nextHowl c) (url (props c))
                         (audioFormat (props c))] /\
    step c1 (EvTimeout (List.length (timers c))) = Some c2 /\
    log c2 = log c1 ++ [HowlStop (nextHowl c)].
Proof.
  intros Hrun Ha Hn Hurl.
  destruct (mounted_bound _ _ _ Hrun) as [[h Hh] Hk].
  assert (K : howlerKnown c).
  { apply (howlerKnown_run _ _ _ Hrun). intros h' Hh'. discriminate. }
  pose proof (mounted_phase _ _ _ Hrun) as Hp.
  exists h. rewrite step_receive. unfold triggered.
  rewrite Ha, Hn, Hh, Hurl, Hp. cbn [negb andb ifMounted].
  do 2 eexists. split; [reflexivity|].
  split; [specialize (K h Hh); lia|].
  split; [reflexivity|]. split.
  - unfold_states. unfold stopCalls, rebindCalls. unfold_states.
    rewrite Hh, <- app_assoc. reflexivity.
  - rewrite step_timeout. unfold_states. rewrite nth_error_snoc.
    split; reflexivity.
Qed.

(** *** Loops after a reactivation *)

(** X7: a progress loop that has a frame pending is not stopped by the flag
    going off and on again before that frame runs: the reactivation starts
    one more loop, under a new name, beside every loop that was pending. *)
Theorem reactivation_adds_a_loop p es c down up t1 t2 :
  run (constructor p) (EvMount :: es) = Some c ->
  active (props c) = true ->
  active down = false ->
  active up = true ->
  exists c1 c2,
    step c (EvReceiveProps down t1) = Some c1 /\
    step c1 (EvReceiveProps up t2) = Some c2 /\
    pendingLoops c2 = S (pendingLoops c) /\
    (forall loop,
       In (TProgress loop) (rafQueue c) -> In (TProgress loop) (rafQueue c2)) /\
    In (TProgress (S (S (nextId c)))) (rafQueue c2) /\
    ~ In (TProgress (S (S (nextId c)))) (rafQueue c).
Proof.
  intros Hrun Ha Hd Hu.
  destruct (mounted_bound _ _ _ Hrun) as [[h0 Hh0] Hk].
  pose proof (wf_ids (wf_reachable _ _ _ Hrun)) as [Hfresh _].
  pose proof (mounted_phase _ _ _ Hrun) as Hp.
  assert (Hc1 : exists h c1,
    step c (EvReceiveProps down t1) = Some c1 /\
    howler c1 = Some h /\ props c1 = down /\ callbacks c1 = [] /\
    nextId c1 = S (nextId c) /\
    rafQueue c1 = rafQueue c ++ [TIcon (newRun "play" t1 c)] /\
    phase c1 = Mounted).
  { rewrite step_receive. unfold triggered. rewrite Ha, Hd, Hh0, Hp.
    cbn [negb andb ifMounted].
    destruct (String.eqb (url (props c)) (url down));
      eexists; eexists; (split; [reflexivity|]); unfold_states;
      rewrite ?Hd; repeat split; first [exact Hh0 | exact Hp]. }
  destruct Hc1 as [h [c1 [S1 [Hh1 [Hp1 [Hk1 [Hn1 [Hq1 Hph1]]]]]]]].
  assert (Hc2 : exists c2,
    step c1 (EvReceiveProps up t2) = Some c2 /\
    rafQueue c2 = (rafQueue c1 ++ [TIcon (newRun "stop" t2 c1)])
                  ++ [TProgress (S (nextId c1))]).
  { rewrite step_receive. unfold triggered. rewrite Hp1, Hd, Hu, Hh1, Hph1.
    cbn [negb andb ifMounted].
    destruct (String.eqb (url down) (url up));
      eexists; (split; [reflexivity|]); unfold_states;
      rewrite Hu, Hk1; reflexivity. }
  destruct Hc2 as [c2 [S2 Hq2]].
  exists c1, c2. split; [exact S1|]. split; [exact S2|].
  rewrite Hn1, Hq1 in Hq2. split; [|split; [|split]].
  - unfold pendingLoops. rewrite Hq2, !filter_app, !length_app. cbn. lia.
  - intros loop Hin. rewrite Hq2, !in_app_iff. auto.
  - rewrite Hq2, !in_app_iff. right. now left.
  - intros Hin. specialize (Hfresh _ Hin). cbn in Hfresh. lia.
Qed.

(** *** A frame that comes too late *)

Lemma gtb_late (t d : Q) : (d < t)%Q -> gtb (Fin t) (Fin d) = true.
Proof.
  intros H. cbn. apply negb_true_iff.
  destruct (Qle_bool t d) eqn:E; [|reflexivity].
  apply Qle_bool_iff in E. lra.
Qed.

(** X8: the last frame of a morph is not forced.  When the first frame
    after an activation comes later than the icon animation length (always
    so, after the first millisecond, for a length of 0 or less), the run
    ends without publishing: the icon keeps the shape it had and no run is
    left to change it. *)
Theorem late_first_frame_leaves_the_icon p es c nextProps now later seek D :
  run (constructor p) (EvMount :: es) = Some c ->
  rafQueue c = [] ->
  active (props c) = false ->
  active nextProps = true ->
  iconAnimationLength (props c) = Fin D ->
  (D < inject_Z (later - now))%Q ->
  exists c1 c2,
    step c (EvReceiveProps nextProps now) = Some c1 /\
    step c1 (EvFrame later seek) = Some c2 /\
    log c2 = log c1 /\
    iconPoints (state c2) = iconPoints (state c) /\
    rafQueue c2 = [TProgress (S (nextId c))].
Proof.
  intros Hrun Hq Ha Hn HD Hlate.
  destruct (mounted_bound _ _ _ Hrun) as [[h Hh] Hk].
  pose proof (mounted_phase _ _ _ Hrun) as Hp.
  assert (Hc1 : exists c1,
    step c (EvReceiveProps nextProps now) = Some c1 /\
    rafQueue c1 = [TIcon (newRun "stop" now c); TProgress (S (nextId c))] /\
    iconPoints (state c1) = iconPoints (state c)).
  { rewrite step_receive. unfold triggered. rewrite Ha, Hn, Hh, Hp.
    cbn [negb andb ifMounted].
    destruct (String.eqb (url (props c)) (url nextProps));
      eexists; (split; [reflexivity|]); unfold_states;
      rewrite Hn, Hk, Hq; split; reflexivity. }
  destruct Hc1 as [c1 [S1 [Hq1 Hi1]]].
  exists c1. rewrite step_frame, Hq1.
  cbn [newRun startTime runDuration]. rewrite HD. unfold ofZ.
  rewrite (gtb_late _ _ Hlate).
  eexists. split; [exact S1|]. split; [reflexivity|].
  split; [reflexivity|]. split; [exact Hi1 | reflexivity].
Qed.

(** *** Clicks *)

(** X9: clicks only ask.  Any number of clicks in a row leaves the props,
    the state, the session and everything pending as they are, bound or
    not, and adds one request per click to the log: [stop()] while the flag
    is on, [play(audioId)] while it is off. *)
Theorem clicks_only_ask n : forall c,
  run c (repeat EvClick n) =
  Some (setLog (log c ++ repeat (request c) n) c).
Proof.
  induction n as [|n IH]; intros c; cbn [repeat run].
  - rewrite app_nil_r. now destruct c.
  - rewrite step_click. fold (request c). rewrite IH.
    unfold setLog, request. cbn. rewrite <- app_assoc. reflexivity.
Qed.

(** *** Shapes of different lengths *)

Lemma morphFrom_some (t d : num) (final : Points) : forall initial index,
  index + List.length initial <= List.length final ->
  exists pts,
    morphFrom index t d initial final = Some pts /\
    List.length pts = List.length initial.
Proof.
  induction initial as [|[x y] initial IH]; intros index Hlen; cbn in *.
  - now exists [].
  - destruct (nth_error final index) as [[fx fy]|] eqn:E.
    + destruct (IH (S index)) as [pts [Hm Hl]]; [lia|].
      rewrite Hm. eexists. split; [reflexivity|]. cbn. now rewrite Hl.
    + apply nth_error_None in E. lia.
Qed.

Lemma morphFrom_none (t d : num) (final : Points) : forall initial index,
  List.length final < index + List.length initial ->
  initial <> [] ->
  morphFrom index t d initial final = None.
Proof.
  induction initial as [|[x y] initial IH]; intros index Hlen Hne;
    [congruence|]. cbn in *.
  destruct (nth_error final index) as [[fx fy]|] eqn:E; [|reflexivity].
  assert (Hi : index < List.length final).
  { apply nth_error_Some. congruence. }
  destruct initial as [|q initial]; [cbn in Hlen; lia|].
  rewrite IH; [reflexivity | cbn in *; lia | discriminate].
Qed.

(** X10: a frame of a run within its duration throws exactly when the
    target shape has fewer points than the shape the run started from;
    otherwise it computes as many points as the run started from, the extra
    points of a longer target being ignored, and publishes them on the
    mounted component: the state then holds that many points.  On a
    component that is not mounted the state keeps the points it had. *)
Theorem icon_frame_and_shape_lengths c r rest now seek :
  rafQueue c = TIcon r :: rest ->
  gtb (ofZ (now - startTime r)) (runDuration r) = false ->
  (List.length (initialPoints r) <= List.length (finalPoints r) ->
   exists c' pts,
     step c (EvFrame now seek) = Some c' /\
     morph (ofZ (now - startTime r)) (runDuration r)
           (initialPoints r) (finalPoints r) = Some pts /\
     List.length pts = List.length (initialPoints r) /\
     (phase c = Mounted ->
      iconPoints (state c') = pts /\
      List.length (iconPoints (state c')) = List.length (initialPoints r)) /\
     (phase c <> Mounted ->
      iconPoints (state c') = iconPoints (state c))) /\
  (List.length (finalPoints r) < List.length (initialPoints r) ->
   step c (EvFrame now seek) = None).
Proof.
  intros Hq Hg. rewrite step_frame, Hq, Hg. unfold morph. split; intros Hlen.
  - destruct (morphFrom_some (ofZ (now - startTime r)) (runDuration r)
                (finalPoints r) (initialPoints r) 0 Hlen)
      as [pts [Hm Hl]].
    rewrite Hm. eexists. exists pts. split; [reflexivity|].
    split; [reflexivity|]. split; [exact Hl|]. split.
    + intros Hp. rewrite Hp. cbn. split; [reflexivity | exact Hl].
    + intros Hp. destruct (phase c); [reflexivity | congruence | reflexivity].
  - rewrite morphFrom_none; [reflexivity | exact Hlen |].
    intros E. rewrite E in Hlen. cbn in Hlen. lia.
Qed.

(** *** Rendering *)


Lemma progressWidth_finite c d q :
  barDiameter c = Fin d ->
  progress (state c) = Fin q ->
  progressWidth c =
  Fin (inject_Z (Qfloor (1 + - ((1 + - q)
                                * (d * (884279719003555 # 281474976710656)))))).
Proof.
  intros Hd Hq. unfold progressWidth, barCircumference. rewrite Hd, Hq.
  reflexivity.
Qed.

(** X12: for a ring of finite, non-negative diameter the dash offset of the
    progress bar is an integer that grows with the progress, is at most 1
    for a progress of at most 1 and is 1 at progress 1. *)
Theorem dash_offset_grows_with_progress c d q :
  barDiameter c = Fin d ->
  (0 <= d)%Q ->
  progress (state c) = Fin q ->
  exists o,
    progressWidth c = Fin (inject_Z o) /\
    ((q <= 1)%Q -> (o <= 1)%Z) /\
    ((q == 1)%Q -> o = 1%Z) /\
    forall c' q',
      props c' = props c ->
      progress (state c') = Fin q' ->
      (q <= q')%Q ->
      exists o', progressWidth c' = Fin (inject_Z o') /\ (o <= o')%Z.
Proof.
  intros Hd Hpos Hq. rewrite (progressWidth_finite c d q Hd Hq).
  eexists. split; [reflexivity|].
  set (k := (d * (884279719003555 # 281474976710656))%Q).
  assert (Hk : (0 <= k)%Q).
  { unfold k. apply Qmult_le_0_compat; [assumption | discriminate]. }
  split; [|split].
  - intros H1. refine (Qfloor_resp_le _ 1 _). nra.
  - intros H1. transitivity (Qfloor 1); [|reflexivity].
    apply Qfloor_comp. rewrite H1. ring.
  - intros c' q' Hp Hq' Hle.
    assert (Hd' : barDiameter c' = Fin d).
    { unfold barDiameter in *. now rewrite Hp. }
    rewrite (progressWidth_finite c' d q' Hd' Hq').
    eexists. split; [reflexivity|]. apply Qfloor_resp_le. fold k. nra.
Qed.

(** X13: when the button is activated before the load callback, the frame
    of the progress loop on the mounted component leaves a progress bar on
    screen whose dash offset is [NaN]. *)
Theorem unloaded_bar_is_drawn_with_nan p es c loop rest now seek h :
  after (constructor p) es = Some c ->
  forallb (fun e => negb (isLoad e)) es = true ->
  phase c = Mounted ->
  rafQueue c = TProgress loop :: rest ->
  howler c = Some h ->
  active (props c) = true ->
  exists c',
    step c (EvFrame now seek) = Some c' /\
    shownOffset (render c') = Some NaN.
Proof.
  intros Hrun Hload Hp Hq Hh Ha.
  destruct (unloaded_after es (constructor p) c Hrun Hload) as [Hd _];
    [reflexivity | intros ? ? [] |].
  rewrite step_frame, Hq, Hh, Hp. cbn [ifMounted].
  eexists. split; [reflexivity|].
  unfold shownOffset, render, renderProgressBar, progressWidth.
  cbn [children nth_error progressPublished props state progress
       withProgress strokeDashoffset].
  rewrite Ha. cbn [nth_error strokeDashoffset].
  unfold ratio. rewrite Hd, div_undefined. reflexivity.
Qed.

(** X14: the progress that the frame left pending at a deactivation
    publishes is not drawn: after the deactivation and that frame the state
    holds the published ratio, and [render] shows no progress bar. *)
Theorem stale_progress_is_not_drawn p es c loop rest nextProps now later seek :
  run (constructor p) (EvMount :: es) = Some c ->
  rafQueue c = TProgress loop :: rest ->
  active (props c) = true ->
  active nextProps = false ->
  exists c1 c2,
    step c (EvReceiveProps nextProps now) = Some c1 /\
    progress (state c1) = zero /\
    step c1 (EvFrame later seek) = Some c2 /\
    progress (state c2) = ratio seek c1 /\
    shownOffset (render c2) = None.
Proof.
  intros Hrun Hq Ha Hn.
  destruct (mounted_bound _ _ _ Hrun) as [[h Hh] Hk].
  pose proof (mounted_phase _ _ _ Hrun) as Hp.
  assert (Hc1 : exists h1 c1,
    step c (EvReceiveProps nextProps now) = Some c1 /\
    progress (state c1) = zero /\
    howler c1 = Some h1 /\ props c1 = nextProps /\
    rafQueue c1 = TProgress loop :: rest ++ [TIcon (newRun "play" now c)] /\
    phase c1 = Mounted).
  { rewrite step_receive. unfold triggered. rewrite Ha, Hn, Hh, Hp.
    cbn [negb andb ifMounted].
    destruct (String.eqb (url (props c)) (url nextProps));
      eexists; eexists; (split; [reflexivity|]); unfold_states;
      rewrite Hn, Hq; repeat split; first [exact Hh | exact Hp]. }
  destruct Hc1 as [h1 [c1 [S1 [Hz [Hh1 [Hp1 [Hq1 Hph1]]]]]]].
  exists c1. rewrite step_frame, Hq1, Hh1, Hph1. cbn [ifMounted].
  eexists. split; [exact S1|]. split; [exact Hz|].
  split; [reflexivity|]. split; [reflexivity|].
  unfold shownOffset, render. cbn [children nth_error progressPublished props].
  rewrite Hp1, Hn. reflexivity.
Qed.

Lemma numbers_app (t u : Text) : numbers (t ++ u) = numbers t ++ numbers u.
Proof.
  induction t as [|[s|x] t IH]; cbn; [reflexivity | exact IH |].
  now rewrite IH.
Qed.

Lemma numbers_join_points (pts : Points) :
  numbers (join " " (map pointText pts)) = coordinates pts.
Proof.
  induction pts as [|[x y] pts IH]; [reflexivity|].
  destruct pts as [|q pts]; [reflexivity|].
  change (numbers (pointText (x, y)
                   ++ Lit " " :: join " " (map pointText (q :: pts)))
          = x :: y :: coordinates (q :: pts)).
  rewrite numbers_app. cbn [numbers pointText fst snd app].
  now rewrite IH.
Qed.

(** X15: the [points] attribute of the rendered polygon lists the
    coordinates of [state.iconPoints], each point as x then y, in the order
    of the points and with nothing left out or added; its fill is
    [playIconColor] while the flag is on and [stopIconColor] while it is
    off. *)
Theorem icon_is_drawn_from_the_state c :
  exists pts st,
    renderIcon c =
      polygon pts st (if active (props c) then playIconColor (props c)
                      else stopIconColor (props c)) /\
    numbers pts = coordinates (iconPoints (state c)).
Proof.
  unfold renderIcon. do 2 eexists. split; [reflexivity|].
  apply numbers_join_points.
Qed.

End Properties.

(* ------------------------------------------------------------------ *)
(** ** Concrete runs *)
(* ------------------------------------------------------------------ *)

#[local] Existing Instance sampleHelpers.

(** Half a second into a clip of one second: the progress is one half. *)
Lemma c1_half_way :
  phase playing = Mounted /\
  rafQueue playing = TProgress 1 :: tl (rafQueue playing) /\
  howler playing = Some 0 /\
  exists c',
    step playing (EvFrame 32 (Fin (1 # 2))) = Some c' /\
    same (progress (state c')) (Fin (1 # 2)).
Proof.
  split; [reflexivity|]. split; [reflexivity|]. split; [reflexivity|].
  destruct (c1_progress_is_unclamped_ratio playing 1 (tl (rafQueue playing))
              32 (Fin (1 # 2)) 0 eq_refl eq_refl eq_refl)
    as [c' [Hs [Hp _]]].
  exists c'. split; [exact Hs|]. rewrite Hp. vm_compute. reflexivity.
Defined.

(** Two seconds reported for a clip of one second: the published progress
    is 2, not 1. *)
Lemma c1_two_seconds_into_one_second_clip :
  ~ publishesClampedRatio playing 32 (Fin 2).
Proof.
  intros H.
  assert (S : step playing (EvFrame 32 (Fin 2)) = Some overrun)
    by (vm_compute; reflexivity).
  assert (N : ~ same (progress (state overrun))
                     (clamp01 (div (mul (Fin 2) (ofZ 1000))
                                   (toNumber (duration (state playing))))))
    by (vm_compute; discriminate).
  exact (N (H 1 (tl (rafQueue playing)) _ eq_refl eq_refl eq_refl S)).
Qed.

(** Scenario B: the frame 450 ms after the activation publishes the "stop"
    shape. *)
Lemma c2_stop_shape_after_450ms :
  phase activated = Mounted /\
  rafQueue activated = TIcon firstRun :: tl (rafQueue activated) /\
  runDuration firstRun = Fin 450 /\
  (0 < 450)%Q /\
  finitePoints (initialPoints firstRun) /\
  finitePoints (finalPoints firstRun) /\
  List.length (initialPoints firstRun) = List.length (finalPoints firstRun) /\
  (0 <= inject_Z (450 - startTime firstRun) <= 450)%Q /\
  exists c',
    step activated (EvFrame 450 (Fin 0)) = Some c' /\
    samePoints (iconPoints (state c')) (getStopIconPoints idleProps).
Proof.
  assert (F1 : finitePoints (initialPoints firstRun))
    by (repeat constructor).
  assert (F2 : finitePoints (finalPoints firstRun))
    by (repeat constructor).
  assert (T : (0 <= inject_Z (450 - startTime firstRun) <= 450)%Q)
    by (split; discriminate).
  repeat (split; [first [reflexivity | assumption]|]).
  destruct (c2_morph_converges_without_overshoot activated firstRun
              (tl (rafQueue activated)) 450 (Fin 0) 450
              eq_refl eq_refl eq_refl eq_refl F1 F2 eq_refl T)
    as [c' [pts [Hs [Hp [_ [_ [He _]]]]]]].
  exists c'. split; [exact Hs|]. rewrite Hp. apply He. reflexivity.
Defined.

(** With an animation of length 0, the frame at time 0 publishes [NaN]
    coordinates. *)
Lemma c2_zero_length_animation : ~ morphReachesTarget instant 0.
Proof.
  intros H.
  assert (S : step instant (EvFrame 0 (Fin 0)) = Some instantFrame)
    by (vm_compute; reflexivity).
  assert (N : ~ samePoints (iconPoints (state instantFrame))
                           (finalPoints firstRun))
    by (vm_compute; intros [[] _]).
  exact (N (H (mkRun 0 0 (Fin 0) (initialPoints firstRun)
                     (finalPoints firstRun))
              (tl (rafQueue instant)) (Fin 0) _ eq_refl (Qeq_refl 0) S)).
Qed.

(** Scenario A: activating the loaded button calls [play()] once. *)
Lemma c3_activate_loaded_button :
  run (constructor idleProps) (EvMount :: tl loadedEvents) = Some loaded /\
  active (props loaded) = false /\
  active activeProps = true /\
  exists h c',
    howler loaded = Some h /\
    step loaded (EvReceiveProps activeProps 0) = Some c' /\
    count isPlay (log c') = 1 /\
    progress (state c') = zero.
Proof.
  assert (R : run (constructor idleProps) (EvMount :: tl loadedEvents)
               = Some loaded) by (vm_compute; reflexivity).
  split; [exact R|]. split; [reflexivity|]. split; [reflexivity|].
  destruct (c3_activate_starts_playback idleProps (tl loadedEvents) loaded
              activeProps 0 R eq_refl eq_refl)
    as [h [c' [Hh [Hs [_ [Hc [_ [Hp _]]]]]]]].
  exists h, c'. repeat split; assumption.
Defined.

(** Deactivating the playing button leaves one timer for [stop()]. *)
Lemma c4_deactivate_playing_button :
  run (constructor idleProps) (EvMount :: tl playingEvents) = Some playing /\
  active (props playing) = true /\
  active idleProps = false /\
  exists h c',
    howler playing = Some h /\
    step playing (EvReceiveProps idleProps 20) = Some c' /\
    count isFade (log c') = 2 /\
    count isStop (log c') = 0 /\
    timers c' = [(Fin 0, TStop)].
Proof.
  assert (R : run (constructor idleProps) (EvMount :: tl playingEvents)
               = Some playing) by (vm_compute; reflexivity).
  split; [exact R|]. split; [reflexivity|]. split; [reflexivity|].
  destruct (c4_deactivate_fades_then_stops idleProps (tl playingEvents)
              playing idleProps 20 R eq_refl eq_refl)
    as [h [c' [Hh [Hs [_ [Hf [Hst [_ [Ht _]]]]]]]]].
  exists h, c'. repeat split; assumption.
Defined.

(** One session is live while the button plays, and unmounting frees it. *)
Lemma c5_playing_button_has_one_session :
  after (constructor idleProps) playingEvents = Some playing /\
  List.length (liveHowls playing) <= 1 /\
  exists c2, step playing EvUnmount = Some c2 /\ liveHowls c2 = [].
Proof.
  assert (R : after (constructor idleProps) playingEvents = Some playing)
    by (vm_compute; reflexivity).
  split; [exact R|].
  destruct (c5_at_most_one_live_session idleProps playingEvents playing R)
    as [Hone [_ Hfree]].
  split; [exact Hone|].
  destruct (Hfree eq_refl) as [h [c2 [_ [_ [_ [Hs [_ Hl]]]]]]].
  exists c2. split; assumption.
Defined.



(** The first run, superseded at 100 ms, publishes again at 200 ms. *)
Lemma c7_superseded_run_publishes :
  after (constructor idleProps) supersedingEvents = Some superseding /\
  rafQueue superseding = TIcon firstRun :: tl (rafQueue superseding) /\
  phase superseding = Mounted /\
  exists c1 pts,
    step superseding (EvFrame 200 (Fin 0)) = Some c1 /\
    log c1 = log superseding ++ [SetIconPoints 0 pts].
Proof.
  assert (R : after (constructor idleProps) supersedingEvents
               = Some superseding) by (vm_compute; reflexivity).
  split; [exact R|]. split; [reflexivity|]. split; [reflexivity|].
  destruct (c7_run_ends_by_timeout_or_unmount idleProps supersedingEvents
              superseding firstRun (tl (rafQueue superseding)) 200 (Fin 0)
              R eq_refl)
    as [Hpub _].
  destruct (morph (ofZ (200 - startTime firstRun)) (runDuration firstRun)
                  (initialPoints firstRun) (finalPoints firstRun))
    as [pts|] eqn:Hm; [|discriminate Hm].
  destruct (Hpub pts eq_refl eq_refl eq_refl) as [c1 [Hs [Hl _]]].
  exists c1, pts. split; assumption.
Defined.

Lemma c7_first_run_not_silenced :
  ~ supersededRunsAreSilent idleProps supersededEvents.
Proof.
  intros H.
  assert (R : run (constructor idleProps) supersededEvents = Some superseded)
    by (vm_compute; reflexivity).
  assert (N : staleDraw (log superseded) = true)
    by (vm_compute; reflexivity).
  specialize (H _ R). congruence.
Qed.

(** A new URL for the loaded button: the session is replaced. *)
Lemma c8_new_url_for_loaded_button :
  run (constructor idleProps) (EvMount :: tl loadedEvents) = Some loaded /\
  String.eqb (url (props loaded)) (url otherClip) = false /\
  exists c',
    step loaded (EvReceiveProps otherClip 0) = Some c' /\
    howler c' = Some 1 /\
    liveHowls c' = [1] /\
    loading (state c') = false /\
    duration (state c') = Some (Fin 1000).
Proof.
  assert (R : run (constructor idleProps) (EvMount :: tl loadedEvents)
               = Some loaded) by (vm_compute; reflexivity).
  split; [exact R|]. split; [reflexivity|].
  destruct (c8_url_change_rebinds_and_keeps_state idleProps (tl loadedEvents)
              loaded otherClip 0 R eq_refl)
    as [h [c' [pre [src [fmt [_ [Hs [_ [Hh [Hl [Hld [Hd _]]]]]]]]]]]].
  exists c'. repeat split; assumption.
Defined.

(** The loading flag is still false after the URL has changed. *)
Lemma c8_loading_flag_stays_false : ~ urlChangeReloads loaded otherClip 0.
Proof.
  intros H.
  assert (S : step loaded (EvReceiveProps otherClip 0) = Some relinked)
    by (vm_compute; reflexivity).
  destruct (H _ eq_refl S) as [_ [Hload _]].
  discriminate Hload.
Qed.

(** A new URL with the same flag: the engine is asked to rebind only. *)
Lemma c9_new_url_same_flag :
  active otherClip = active (props loaded) /\
  exists c' delta,
    step loaded (EvReceiveProps otherClip 0) = Some c' /\
    log c' = log loaded ++ delta /\
    count isPlay delta = 0 /\ count isStop delta = 0 /\
    count isFade delta = 0.
Proof.
  split; [reflexivity|].
  destruct (c9_same_flag_no_transport_call loaded otherClip 0 eq_refl)
    as [c' [delta [Hs [Hl [_ [Hp [Hst [Hf _]]]]]]]].
  exists c', delta. repeat split; assumption.
Defined.

(** Activated before the load callback: the frame of the loop publishes
    [NaN]. *)
Lemma c10_eager_activation :
  after (constructor idleProps) eagerEvents = Some eager /\
  forallb (fun e => negb (isLoad e)) eagerEvents = true /\
  phase eager = Mounted /\
  duration (state eager) = None /\
  exists c',
    step eager (EvFrame 32 (Fin (1 # 2))) = Some c' /\
    progress (state c') = NaN.
Proof.
  assert (R : after (constructor idleProps) eagerEvents = Some eager)
    by (vm_compute; reflexivity).
  split; [exact R|]. split; [reflexivity|]. split; [reflexivity|].
  destruct (c10_progress_nan_before_load idleProps eagerEvents eager
              R eq_refl)
    as [Hd [_ Hnan]].
  split; [exact Hd|].
  destruct (Hnan 1 (tl (rafQueue eager)) 32%Z (Fin (1 # 2)) 0
              eq_refl eq_refl eq_refl)
    as [c' [Hs [Hp _]]].
  exists c'. split; assumption.
Defined.

(** A new URL after the load: the flag stays off. *)
Lemma loading_stays_off_on_new_url :
  after loaded [EvReceiveProps otherClip 0] = Some relinked /\
  loading (state loaded) = false /\
  loading (state relinked) = false.
Proof.
  assert (R : after loaded [EvReceiveProps otherClip 0] = Some relinked)
    by (vm_compute; reflexivity).
  split; [exact R|]. split; [reflexivity|].
  exact (loading_never_returns _ loaded relinked R eq_refl).
Defined.

(** Mount, load, activate, one frame, deactivate: one [play()], two
    [fade()], and the one [stop()] still on its timer. *)
Lemma calls_of_one_playback :
  after (constructor idleProps) deactivatedEvents = Some deactivated /\
  count isPlay (log deactivated) = 1 /\
  count isFade (log deactivated) = 2 /\
  count isStop (log deactivated) + List.length (timers deactivated) = 1.
Proof.
  assert (R : after (constructor idleProps) deactivatedEvents
              = Some deactivated) by (vm_compute; reflexivity).
  split; [exact R|].
  destruct (engine_calls_follow_flag_transitions deactivatedEvents
              (constructor idleProps) deactivated R)
    as [Hp [Hf Hs]].
  rewrite Hp, Hf, Hs. repeat split.
Defined.

(** Unmounting cancels neither the pending frame of the loop nor the stop
    timer. *)
Lemma unmount_cancels_nothing :
  step deactivated EvUnmount = Some unmounted /\
  In (TProgress 1) (rafQueue unmounted) /\
  In (Fin 0, TStop) (timers unmounted).
Proof.
  assert (S : step deactivated EvUnmount = Some unmounted)
    by (vm_compute; reflexivity).
  split; [exact S|].
  destruct (pending_callbacks_are_never_cancelled deactivated EvUnmount
              unmounted S)
    as [Hq Ht].
  split.
  - destruct (Hq (TProgress 1) (or_introl eq_refl))
      as [Hin | [now [seek [rest [E _]]]]]; [exact Hin | discriminate E].
  - destruct (Ht (Fin 0, TStop) (or_introl eq_refl))
      as [Hin | [k [E _]]]; [exact Hin | discriminate E].
Defined.

(** After the unmount the pending frame of the loop publishes nothing and
    leaves the state as it is. *)
Lemma frame_after_unmount_publishes_nothing :
  exists c1,
    step unmounted (EvFrame 32 (Fin (1 # 2))) = Some c1 /\
    log c1 = log unmounted /\
    state c1 = state unmounted.
Proof.
  eexists. split; [vm_compute; reflexivity|]. split; reflexivity.
Qed.

(** Off and on again while playing: the old timer stops the new playback. *)
Lemma reactivated_playback_is_stopped :
  run (constructor idleProps) (EvMount :: tl playingEvents) = Some playing /\
  active (props playing) = true /\
  active idleProps = false /\
  active activeProps = true /\
  String.eqb (url idleProps) (url activeProps) = true /\
  exists h c1 c2 c3,
    step playing (EvReceiveProps idleProps 20) = Some c1 /\
    step c1 (EvReceiveProps activeProps 40) = Some c2 /\
    howler c2 = Some h /\
    step c2 (EvTimeout 0) = Some c3 /\
    log c3 = log c2 ++ [HowlStop h] /\
    active (props c3) = true.
Proof.
  assert (R : run (constructor idleProps) (EvMount :: tl playingEvents)
              = Some playing) by (vm_compute; reflexivity).
  split; [exact R|]. repeat (split; [reflexivity|]).
  destruct (stop_timer_survives_reactivation idleProps (tl playingEvents)
              playing idleProps activeProps 20 40 R eq_refl eq_refl eq_refl
              eq_refl)
    as [h [c1 [c2 [c3 [S1 [S2 [Hh [_ [S3 [Hl Ha]]]]]]]]]].
  exists h, c1, c2, c3. repeat split; assumption.
Defined.

(** Deactivated with a new URL: the stop goes to session 1, the fade went
    to session 0. *)
Lemma stop_after_new_url :
  run (constructor idleProps) (EvMount :: tl playingEvents) = Some playing /\
  active (props playing) = true /\
  active otherClip = false /\
  String.eqb (url (props playing)) (url otherClip) = false /\
  exists c1 c2,
    step playing (EvReceiveProps otherClip 20) = Some c1 /\
    step c1 (EvTimeout 0) = Some c2 /\
    log c2 = log c1 ++ [HowlStop 1].
Proof.
  assert (R : run (constructor idleProps) (EvMount :: tl playingEvents)
              = Some playing) by (vm_compute; reflexivity).
  split; [exact R|]. repeat (split; [reflexivity|]).
  destruct (stop_reaches_the_rebound_session idleProps (tl playingEvents)
              playing otherClip 20 R eq_refl eq_refl eq_refl)
    as [h [c1 [c2 [_ [_ [S1 [_ [S2 Hl]]]]]]]].
  exists c1, c2. repeat split; assumption.
Defined.

(** Off and on again while playing: two loops. *)
Lemma two_loops_after_reactivation :
  run (constructor idleProps) (EvMount :: tl playingEvents) = Some playing /\
  active (props playing) = true /\
  active idleProps = false /\
  active activeProps = true /\
  exists c1 c2,
    step playing (EvReceiveProps idleProps 20) = Some c1 /\
    step c1 (EvReceiveProps activeProps 40) = Some c2 /\
    pendingLoops c2 = 2.
Proof.
  assert (R : run (constructor idleProps) (EvMount :: tl playingEvents)
              = Some playing) by (vm_compute; reflexivity).
  split; [exact R|]. repeat (split; [reflexivity|]).
  destruct (reactivation_adds_a_loop idleProps (tl playingEvents)
              playing idleProps activeProps 20 40 R eq_refl eq_refl eq_refl)
    as [c1 [c2 [S1 [S2 [Hn _]]]]].
  exists c1, c2. repeat split; assumption.
Defined.

(** The first frame half a second after the activation: the icon is still
    the "play" shape. *)
Lemma icon_stuck_after_late_frame :
  run (constructor idleProps) (EvMount :: tl loadedEvents) = Some loaded /\
  rafQueue loaded = [] /\
  active (props loaded) = false /\
  active activeProps = true /\
  iconAnimationLength (props loaded) = Fin 450 /\
  (450 < inject_Z (500 - 0))%Q /\
  exists c1 c2,
    step loaded (EvReceiveProps activeProps 0) = Some c1 /\
    step c1 (EvFrame 500 (Fin 0)) = Some c2 /\
    iconPoints (state c2) = iconPoints (state loaded).
Proof.
  assert (R : run (constructor idleProps) (EvMount :: tl loadedEvents)
              = Some loaded) by (vm_compute; reflexivity).
  split; [exact R|]. repeat (split; [reflexivity|]).
  destruct (late_first_frame_leaves_the_icon idleProps (tl loadedEvents)
              loaded activeProps 0 500 (Fin 0) 450 R eq_refl eq_refl eq_refl
              eq_refl eq_refl)
    as [c1 [c2 [S1 [S2 [_ [Hi _]]]]]].
  exists c1, c2. repeat split; assumption.
Defined.

(** A frame of the first run at 200 ms publishes four points. *)
Lemma first_run_publishes_four_points :
  rafQueue activated = TIcon firstRun :: tl (rafQueue activated) /\
  gtb (ofZ (200 - startTime firstRun)) (runDuration firstRun) = false /\
  exists c',
    step activated (EvFrame 200 (Fin 0)) = Some c' /\
    List.length (iconPoints (state c')) = 4.
Proof.
  split; [reflexivity|]. split; [reflexivity|].
  destruct (icon_frame_and_shape_lengths activated firstRun
              (tl (rafQueue activated)) 200 (Fin 0) eq_refl eq_refl)
    as [Hok _].
  destruct (Hok (le_n 4)) as [c' [pts [S [_ [_ [Hl _]]]]]].
  exists c'. split; [exact S|]. exact (proj2 (Hl eq_refl)).
Defined.


(** The default button at progress 0: the dash offset is an integer of at
    most 1. *)
Lemma default_offset_at_start :
  barDiameter playing = Fin (45 + - 4) /\
  (0 <= 45 + - 4)%Q /\
  progress (state playing) = Fin 0 /\
  exists o, progressWidth playing = Fin (inject_Z o) /\ (o <= 1)%Z.
Proof.
  assert (P : (0 <= 45 + - 4)%Q) by discriminate.
  split; [reflexivity|]. split; [exact P|]. split; [reflexivity|].
  destruct (dash_offset_grows_with_progress playing (45 + - 4) 0
              eq_refl P eq_refl)
    as [o [Ho [Hle _]]].
  exists o. split; [exact Ho|]. apply Hle. discriminate.
Defined.

(** Activated before the load callback: the bar is drawn with [NaN]. *)
Lemma eager_bar_is_nan :
  after (constructor idleProps) eagerEvents = Some eager /\
  forallb (fun e => negb (isLoad e)) eagerEvents = true /\
  phase eager = Mounted /\
  rafQueue eager = TProgress 1 :: tl (rafQueue eager) /\
  howler eager = Some 0 /\
  active (props eager) = true /\
  exists c',
    step eager (EvFrame 32 (Fin (1 # 2))) = Some c' /\
    shownOffset (render c') = Some NaN.
Proof.
  assert (R : after (constructor idleProps) eagerEvents = Some eager)
    by (vm_compute; reflexivity).
  split; [exact R|]. repeat (split; [reflexivity|]).
  exact (unloaded_bar_is_drawn_with_nan idleProps eagerEvents eager 1
           (tl (rafQueue eager)) 32 (Fin (1 # 2)) 0 R eq_refl eq_refl
           eq_refl eq_refl eq_refl).
Defined.

(** Deactivated half a second into the clip: the pending frame publishes
    one half and no bar is drawn. *)
Lemma stale_half_is_not_drawn :
  run (constructor idleProps) (EvMount :: tl playingEvents) = Some playing /\
  rafQueue playing = TProgress 1 :: tl (rafQueue playing) /\
  active (props playing) = true /\
  active idleProps = false /\
  exists c1 c2,
    step playing (EvReceiveProps idleProps 20) = Some c1 /\
    step c1 (EvFrame 32 (Fin (1 # 2))) = Some c2 /\
    shownOffset (render c2) = None.
Proof.
  assert (R : run (constructor idleProps) (EvMount :: tl playingEvents)
              = Some playing) by (vm_compute; reflexivity).
  split; [exact R|]. repeat (split; [reflexivity|]).
  destruct (stale_progress_is_not_drawn idleProps (tl playingEvents) playing
              1 (tl (rafQueue playing)) idleProps 20 32 (Fin (1 # 2))
              R eq_refl eq_refl eq_refl)
    as [c1 [c2 [S1 [_ [S2 [_ Hn]]]]]].
  exists c1, c2. repeat split; assumption.
Defined.

End PlayButton.
